(** * jumpstart-helper: pack playability and draft evaluation

    A shallow embedding of [script.py].  Python sets are stdpp [gset]s,
    frozensets used as set members are [gset]s again, exceptions are an
    error result, the module-level match sets are an explicit record that
    the index builders thread through, and [random] is an oracle that the
    draft strategies consume.

    Packs are built by [get_packs] from the packs file, so the members of
    the colours and creature types of a pack are the strings of that file,
    the values of the members of [Colour] and [CreatureType]; the model
    names each of them by the member that has this value. *)

From Stdlib Require Import QArith.
From stdpp Require Import base decidable countable list gmap strings fin_sets.

Open Scope string_scope.
Open Scope list_scope.
Open Scope nat_scope.

(** ** Exceptions *)

Inductive PyError : Type :=
  | TypeError
  | AttributeError
  | ValueError
  | IndexError
  | ZeroDivisionError.

Inductive Result (A : Type) : Type :=
  | Ok (a : A)
  | Raise (e : PyError).
Arguments Ok {A} a.
Arguments Raise {A} e.

Global Instance Result_ret : MRet Result := λ A a, Ok a.
Global Instance Result_bind : MBind Result := λ A B f m,
  match m with
  | Ok a => f a
  | Raise e => Raise e
  end.

(** ** Enumerations *)

Inductive Colour : Type := WHITE | BLUE | BLACK | RED | GREEN.

Inductive CreatureType : Type :=
  | BIRD | RAT | LIZARD | RACCOON | RABBIT | BAT | OTTER | SQUIRREL | MOUSE | FROG.

Inductive Playability : Type := UNPLAYABLE | WEAK | MEDIUM | STRONG.

Global Instance Colour_eq_dec : EqDecision Colour.
Proof. solve_decision. Defined.

Global Instance Colour_countable : Countable Colour.
Proof.
  refine (inj_countable'
    (λ c, match c with
          | WHITE => 0 | BLUE => 1 | BLACK => 2 | RED => 3 | GREEN => 4
          end)
    (λ n, match n with
          | 0 => WHITE | 1 => BLUE | 2 => BLACK | 3 => RED | _ => GREEN
          end) _).
  by intros [].
Defined.

Global Instance CreatureType_eq_dec : EqDecision CreatureType.
Proof. solve_decision. Defined.

Global Instance CreatureType_countable : Countable CreatureType.
Proof.
  refine (inj_countable'
    (λ t, match t with
          | BIRD => 0 | RAT => 1 | LIZARD => 2 | RACCOON => 3 | RABBIT => 4
          | BAT => 5 | OTTER => 6 | SQUIRREL => 7 | MOUSE => 8 | FROG => 9
          end)
    (λ n, match n with
          | 0 => BIRD | 1 => RAT | 2 => LIZARD | 3 => RACCOON | 4 => RABBIT
          | 5 => BAT | 6 => OTTER | 7 => SQUIRREL | 8 => MOUSE | _ => FROG
          end) _).
  by intros [].
Defined.

Global Instance Playability_eq_dec : EqDecision Playability.
Proof. solve_decision. Defined.

(** [Colour.__str__] and [Playability.value]. *)
Definition Colour_str (c : Colour) : string :=
  match c with
  | WHITE => "W" | BLUE => "U" | BLACK => "B" | RED => "R" | GREEN => "G"
  end.

Definition Playability_value (p : Playability) : string :=
  match p with
  | UNPLAYABLE => "Unplayable" | WEAK => "Weak"
  | MEDIUM => "Medium" | STRONG => "Strong"
  end.

(** ** Packs *)

Record Pack : Type := mkPack {
  name : string;
  colours : gset Colour;
  creature_types : gset CreatureType;
}.

Global Instance Pack_eq_dec : EqDecision Pack.
Proof. solve_decision. Defined.

(** Truth value of a set in a condition: non-empty. *)
Definition truthy `{Countable A} (X : gset A) : bool := bool_decide (X ≠ ∅).

(** [any(x in pair for x in types)]. *)
Definition any_in `{Countable A} (types pair : gset A) : Prop :=
  set_Exists (λ x, x ∈ pair) types.

Global Instance any_in_dec `{Countable A} (types pair : gset A) :
  Decision (any_in types pair).
Proof. unfold any_in. apply _. Defined.

Definition matching_types (self pack_two : Pack) : gset CreatureType :=
  filter (λ creature_type, creature_type ∈ creature_types pack_two)
         (creature_types self).

Definition synergistic_types (self pack_two : Pack)
    (synergistic_type_pairs : gset (gset CreatureType)) : gset (gset CreatureType) :=
  let matches_with_pack_two :=
    filter (λ type_pair, any_in (creature_types pack_two) type_pair)
           synergistic_type_pairs in
  let matches_with_both_packs :=
    filter (λ type_pair, any_in (creature_types self) type_pair)
           matches_with_pack_two in
  matches_with_both_packs.

Definition matching_colours (self pack_two : Pack) : gset Colour :=
  filter (λ colour, colour ∈ colours pack_two) (colours self).

Definition pair_playability (self pack_two : Pack)
    (synergistic_type_pairs : gset (gset CreatureType)) : Playability :=
  if truthy (matching_colours self pack_two) then
    if truthy (matching_types self pack_two)
       || truthy (synergistic_types self pack_two synergistic_type_pairs)
    then STRONG
    else if Nat.max (size (colours self)) (size (colours pack_two)) =? 1
         then MEDIUM
         else WEAK
  else
    if truthy (matching_types self pack_two)
       || truthy (synergistic_types self pack_two synergistic_type_pairs)
    then if Nat.max (size (colours self)) (size (colours pack_two)) =? 1
         then MEDIUM
         else WEAK
    else if Nat.max (size (colours self)) (size (colours pack_two)) =? 1
         then WEAK
         else UNPLAYABLE.

(** The members of a container of colours in the order of iteration.  A set
    does not keep the order in which the packs file lists the colours of a
    pack; the model iterates in the order of the declaration of [Colour]. *)
Definition iter_colours (X : gset Colour) : list Colour :=
  filter (λ c, c ∈ X) [WHITE; BLUE; BLACK; RED; GREEN].

(** [sep.join(items)] on strings. *)
Fixpoint join (sep : string) (items : list string) : string :=
  match items with
  | [] => ""
  | x :: rest =>
      match rest with
      | [] => x
      | _ :: _ => x +:+ sep +:+ join sep rest
      end
  end.

(** [Pack.__str__]: [f"{''.join(self.colours)} {self.name}"].  The colours
    are strings, the values of their members, so the join returns. *)
Definition Pack_str (self : Pack) : Result string :=
  mret (join "" (Colour_str <$> iter_colours (colours self)) +:+ " " +:+ name self).
Arguments Pack_str : simpl never.

(** [Pack.creature_type] and [Pack.colour]. *)
Definition creature_type (self : Pack) : Result CreatureType :=
  if size (creature_types self) =? 1 then
    match elements (creature_types self) with
    | x :: _ => Ok x
    | [] => Raise IndexError
    end
  else Raise AttributeError.

Definition colour (self : Pack) : Result Colour :=
  if size (colours self) =? 1 then
    match elements (colours self) with
    | x :: _ => Ok x
    | [] => Raise IndexError
    end
  else Raise AttributeError.

(** ** Loops *)

(** [for x in items: body], threading the loop state and stopping at the
    first exception. *)
Fixpoint for_each {A S : Type} (body : A → S → Result S) (items : list A)
    (s : S) : Result S :=
  match items with
  | [] => Ok s
  | x :: rest => s' ← body x s; for_each body rest s'
  end.

(** [enumerate(items, start)]. *)
Definition enumerate {A : Type} (start : nat) (items : list A) : list (nat * A) :=
  zip (seq start (length items)) items.

(** ** Module-level state *)

Record Globals : Type := mkGlobals {
  STRONG_MATCHES : gset (gset string);
  MEDIUM_MATCHES : gset (gset string);
  WEAK_MATCHES : gset (gset string);
  UNPLAYABLE_MATCHES : gset (gset string);
  SYNERGISTIC_TYPE_PAIRS : gset (gset CreatureType);
}.

(** The state right after the module is loaded: five empty sets. *)
Definition module_globals : Globals := mkGlobals ∅ ∅ ∅ ∅ ∅.

Definition add_strong (pair : gset string) (g : Globals) : Globals :=
  mkGlobals ({[pair]} ∪ STRONG_MATCHES g) (MEDIUM_MATCHES g) (WEAK_MATCHES g)
            (UNPLAYABLE_MATCHES g) (SYNERGISTIC_TYPE_PAIRS g).

Definition add_medium (pair : gset string) (g : Globals) : Globals :=
  mkGlobals (STRONG_MATCHES g) ({[pair]} ∪ MEDIUM_MATCHES g) (WEAK_MATCHES g)
            (UNPLAYABLE_MATCHES g) (SYNERGISTIC_TYPE_PAIRS g).

Definition add_weak (pair : gset string) (g : Globals) : Globals :=
  mkGlobals (STRONG_MATCHES g) (MEDIUM_MATCHES g) ({[pair]} ∪ WEAK_MATCHES g)
            (UNPLAYABLE_MATCHES g) (SYNERGISTIC_TYPE_PAIRS g).

Definition add_unplayable (pair : gset string) (g : Globals) : Globals :=
  mkGlobals (STRONG_MATCHES g) (MEDIUM_MATCHES g) (WEAK_MATCHES g)
            ({[pair]} ∪ UNPLAYABLE_MATCHES g) (SYNERGISTIC_TYPE_PAIRS g).

Definition add_synergistic (pair : gset CreatureType) (g : Globals) : Globals :=
  mkGlobals (STRONG_MATCHES g) (MEDIUM_MATCHES g) (WEAK_MATCHES g)
            (UNPLAYABLE_MATCHES g) ({[pair]} ∪ SYNERGISTIC_TYPE_PAIRS g).

(** [frozenset({str(pack_one), str(pack_two)})]: the labels are computed
    left to right, either may raise. *)
Definition label_pair (pack_one pack_two : Pack) : Result (gset string) :=
  label_one ← Pack_str pack_one;
  label_two ← Pack_str pack_two;
  mret ({[label_one; label_two]} : gset string).
Arguments label_pair : simpl never.

(** The four consecutive [if playability == ...: ..._MATCHES.add(...)]. *)
Definition record_match (playability : Playability) (pack_one pack_two : Pack)
    (g : Globals) : Result Globals :=
  g ← (if decide (playability = STRONG)
       then pair ← label_pair pack_one pack_two; mret (add_strong pair g)
       else mret g);
  g ← (if decide (playability = MEDIUM)
       then pair ← label_pair pack_one pack_two; mret (add_medium pair g)
       else mret g);
  g ← (if decide (playability = WEAK)
       then pair ← label_pair pack_one pack_two; mret (add_weak pair g)
       else mret g);
  if decide (playability = UNPLAYABLE)
  then pair ← label_pair pack_one pack_two; mret (add_unplayable pair g)
  else mret g.

(** The first loop of [initialize] and of [write_to_file]. *)
Definition register_synergy (pack : Pack) (g : Globals) : Globals :=
  if (size (creature_types pack) =? 2) && (size (colours pack) =? 1)
  then add_synergistic (creature_types pack) g
  else g.

(** Body of the inner loop of [initialize]. *)
Definition initialize_pair (pack_one pack_two : Pack) (g : Globals) : Result Globals :=
  let playability := pair_playability pack_one pack_two (SYNERGISTIC_TYPE_PAIRS g) in
  record_match playability pack_one pack_two g.

(** The second loop of [initialize], over [enumerate(PACKS, start=1)]. *)
Fixpoint initialize_rows (PACKS : list Pack) (numbered : list (nat * Pack))
    (g : Globals) : Result Globals :=
  match numbered with
  | [] => Ok g
  | (number, pack_one) :: numbered' =>
      if length PACKS <? number then Ok g
      else
        let remaining_packs := drop number PACKS in
        g' ← for_each (initialize_pair pack_one) remaining_packs g;
        initialize_rows PACKS numbered' g'
  end.

Definition initialize (PACKS : list Pack) (g : Globals) : Result Globals :=
  let g := foldl (λ g pack, register_synergy pack g) g PACKS in
  initialize_rows PACKS (enumerate 1 PACKS) g.

(** ** The report *)

Record Matrix : Type := mkMatrix {
  playability_matrix_fieldnames : list string;
  playability_matrix_rows : list (list string);
}.

(** First loop of [write_to_file]: a column per pack, and the synergy pairs. *)
Definition write_header (pack : Pack) (acc : list string * Globals)
    : Result (list string * Globals) :=
  label ← Pack_str pack;
  mret (acc.1 ++ [label], register_synergy pack acc.2).

(** Body of the inner loop of [write_to_file]. *)
Definition write_cell (pack_one pack_two : Pack) (acc : list string * Globals)
    : Result (list string * Globals) :=
  let playability := pair_playability pack_one pack_two (SYNERGISTIC_TYPE_PAIRS acc.2) in
  let playability_matrix_row := acc.1 ++ [Playability_value playability] in
  g ← record_match playability pack_one pack_two acc.2;
  mret (playability_matrix_row, g).

Fixpoint write_rows (packs : list Pack) (numbered : list (nat * Pack))
    (acc : list (list string) * Globals) : Result (list (list string) * Globals) :=
  match numbered with
  | [] => Ok acc
  | (number, pack_one) :: numbered' =>
      if length packs <? number then Ok acc
      else
        label ← Pack_str pack_one;
        let playability_matrix_row := [label] ++ replicate number "" in
        let remaining_packs := drop number packs in
        '(playability_matrix_row, g) ←
          for_each (write_cell pack_one) remaining_packs (playability_matrix_row, acc.2);
        write_rows packs numbered' (acc.1 ++ [playability_matrix_row], g)
  end.

(** [write_to_file]; [packs] is what [get_packs()] read, the result is what
    is handed to the CSV writer. *)
Definition write_to_file (packs : list Pack) (g : Globals) : Result (Matrix * Globals) :=
  '(fieldnames, g) ← for_each write_header packs ([""], g);
  '(rows, g) ← write_rows packs (enumerate 1 packs) ([], g);
  mret (mkMatrix fieldnames rows, g).

(** ** Results of the simulation *)

Record TotalResults : Type := mkTotalResults {
  total_runs : Z;
  strong_or_better : Z;
  medium_or_better : Z;
  weak_or_better : Z;
  unplayable_or_better : Z;
}.

(** [TotalResults()]: every field at its default. *)
Definition TotalResults_new : TotalResults := mkTotalResults 0 0 0 0 0.

(** [self.<attr>] for an integer attribute of a [TotalResults]: the dataclass
    declares five fields; the other names the class defines are its three
    methods, and any other name raises [AttributeError]. *)
Definition TotalResults_getattr (self : TotalResults) (attr : string) : Result Z :=
  if decide (attr = "total_runs") then Ok (total_runs self)
  else if decide (attr = "strong_or_better") then Ok (strong_or_better self)
  else if decide (attr = "medium_or_better") then Ok (medium_or_better self)
  else if decide (attr = "weak_or_better") then Ok (weak_or_better self)
  else if decide (attr = "unplayable_or_better") then Ok (unplayable_or_better self)
  else Raise AttributeError.

(** [a / b] on integers, with the quotient taken in the rationals. *)
Definition truediv (a b : Z) : Result Q :=
  if (b =? 0)%Z then Raise ZeroDivisionError
  else Ok (inject_Z a / inject_Z b)%Q.

Definition strong_or_better_chance (self : TotalResults) : Result Q :=
  strong ← TotalResults_getattr self "strong";
  total ← TotalResults_getattr self "total_runs";
  truediv strong total.

Definition medium_or_better_chance (self : TotalResults) : Result Q :=
  strong ← TotalResults_getattr self "strong";
  medium ← TotalResults_getattr self "mediumn";
  total ← TotalResults_getattr self "total_runs";
  truediv (strong + medium) total.

Definition weak_or_better_chance (self : TotalResults) : Result Q :=
  strong ← TotalResults_getattr self "strong";
  medium ← TotalResults_getattr self "medium";
  weak ← TotalResults_getattr self "weak";
  total ← TotalResults_getattr self "total_runs";
  truediv (strong + medium + weak) total.

Record DraftResult : Type := mkDraftResult {
  strong : Z;
  medium : Z;
  weak : Z;
  unplayable : Z;
}.

(** [DraftResult()]. *)
Definition DraftResult_new : DraftResult := mkDraftResult 0 0 0 0.

(** ** Randomness

    [random] is not part of the repository.  It is an oracle here: a tape of
    numbers and a cursor; every draw reads one number and advances. *)

Record Rng : Type := mkRng {
  tape : nat → nat;
  cursor : nat;
}.

Definition randbelow (n : nat) (rng : Rng) : nat * Rng :=
  (tape rng (cursor rng) mod n, mkRng (tape rng) (S (cursor rng))).

(** [k] draws without replacement: each draw takes one position of the
    pool that is left. *)
Fixpoint sample_pool {A : Type} (pool : list A) (k : nat) (rng : Rng)
    : Result (list A * Rng) :=
  match k with
  | 0 => Ok ([], rng)
  | S k' =>
      let '(j, rng) := randbelow (length pool) rng in
      match pool !! j with
      | Some x =>
          '(rest, rng) ← sample_pool (delete j pool) k' rng;
          mret (x :: rest, rng)
      | None => Raise IndexError
      end
  end.

(** [random.sample(population, k)]: [ValueError] when the sample is larger
    than the population. *)
Definition sample {A : Type} (population : list A) (k : nat) (rng : Rng)
    : Result (list A * Rng) :=
  if length population <? k then Raise ValueError
  else sample_pool population k rng.

(** [random.choice(seq)]: [IndexError] on an empty sequence. *)
Definition choice {A : Type} (seq : list A) (rng : Rng) : Result (A * Rng) :=
  match seq with
  | [] => Raise IndexError
  | _ :: _ =>
      let '(j, rng) := randbelow (length seq) rng in
      match seq !! j with
      | Some x => Ok (x, rng)
      | None => Raise IndexError
      end
  end.

(** ** Draft strategies *)

(** What [draft] returns: a list of packs, or a tuple of one pack and a
    list of packs. *)
Inductive Selection : Type :=
  | SelList (drafted_packs : list Pack)
  | SelTuple (pack_one : Pack) (remaining_packs : list Pack).

(** The abstract method of [DraftStrategy]. *)
Record DraftStrategy : Type := mkStrategy {
  draft : list Pack → Rng → Result (Selection * Rng);
}.

Definition draw (n : nat) : DraftStrategy :=
  mkStrategy (λ packs rng,
    '(drafted, rng) ← sample packs n rng;
    mret (SelList drafted, rng)).

Definition DrawThreeStrategy : DraftStrategy := draw 3.
Definition DrawFourStrategy : DraftStrategy := draw 4.
Definition DrawFiveStrategy : DraftStrategy := draw 5.
Definition DrawSixStrategy : DraftStrategy := draw 6.

(** [DrawThreeTwiceStrategy.draft]. *)
Definition draw_three_twice (packs : list Pack) (rng : Rng)
    : Result ((Pack * list Pack) * Rng) :=
  '(first_three, rng) ← sample packs 3 rng;
  let rest := filter (λ pack, pack ∉ first_three) packs in
  '(first_pick, rng) ← choice first_three rng;
  '(second_three, rng) ← sample rest 3 rng;
  mret ((first_pick, second_three), rng).

Definition DrawThreeTwiceStrategy : DraftStrategy :=
  mkStrategy (λ packs rng,
    '((first_pick, second_three), rng) ← draw_three_twice packs rng;
    mret (SelTuple first_pick second_three, rng)).

(** ** The evaluator *)

(** The [if]/[elif] chain on one pair of a selection. *)
Definition count_pair (g : Globals) (pack_one pack_two : Pack)
    (draft_result : DraftResult) : Result DraftResult :=
  pair ← label_pair pack_one pack_two;
  if decide (pair ∈ STRONG_MATCHES g) then
    mret (mkDraftResult (strong draft_result + 1) (medium draft_result)
                        (weak draft_result) (unplayable draft_result))
  else if decide (pair ∈ MEDIUM_MATCHES g) then
    mret (mkDraftResult (strong draft_result) (medium draft_result + 1)
                        (weak draft_result) (unplayable draft_result))
  else if decide (pair ∈ WEAK_MATCHES g) then
    mret (mkDraftResult (strong draft_result) (medium draft_result)
                        (weak draft_result + 1) (unplayable draft_result))
  else if decide (pair ∈ UNPLAYABLE_MATCHES g) then
    mret (mkDraftResult (strong draft_result) (medium draft_result)
                        (weak draft_result) (unplayable draft_result + 1))
  else mret draft_result.

(** The list branch, over [enumerate(drafted_packs, start=1)]. *)
Fixpoint count_list (g : Globals) (drafted_packs : list Pack)
    (numbered : list (nat * Pack)) (draft_result : DraftResult) : Result DraftResult :=
  match numbered with
  | [] => Ok draft_result
  | (number, pack_one) :: numbered' =>
      if number =? length drafted_packs then Ok draft_result
      else
        let remaining_packs := drop number drafted_packs in
        draft_result ← for_each (count_pair g pack_one) remaining_packs draft_result;
        count_list g drafted_packs numbered' draft_result
  end.

(** [get_draft_result] after the call of [draft]. *)
Definition count_selection (g : Globals) (drafted_packs : Selection)
    : Result DraftResult :=
  let draft_result := DraftResult_new in
  match drafted_packs with
  | SelTuple pack_one remaining_packs =>
      for_each (count_pair g pack_one) remaining_packs draft_result
  | SelList drafted_packs =>
      count_list g drafted_packs (enumerate 1 drafted_packs) draft_result
  end.

Definition get_draft_result (self : DraftStrategy) (g : Globals)
    (packs : list Pack) (rng : Rng) : Result (DraftResult * Rng) :=
  '(drafted_packs, rng) ← draft self packs rng;
  draft_result ← count_selection g drafted_packs;
  mret (draft_result, rng).

Definition nonzero (n : Z) : bool := negb (n =? 0)%Z.

(** One iteration of the loop of [test], after [get_draft_result]. *)
Definition record_trial (draft_result : DraftResult) (results : TotalResults)
    : TotalResults :=
  let results :=
    mkTotalResults (total_runs results + 1) (strong_or_better results)
      (medium_or_better results) (weak_or_better results)
      (unplayable_or_better results) in
  let results :=
    if nonzero (strong draft_result) then
      mkTotalResults (total_runs results) (strong_or_better results + 1)
        (medium_or_better results) (weak_or_better results)
        (unplayable_or_better results)
    else results in
  let results :=
    if nonzero (strong draft_result) || nonzero (medium draft_result) then
      mkTotalResults (total_runs results) (strong_or_better results)
        (medium_or_better results + 1) (weak_or_better results)
        (unplayable_or_better results)
    else results in
  let results :=
    if nonzero (strong draft_result) || nonzero (medium draft_result)
       || nonzero (weak draft_result) then
      mkTotalResults (total_runs results) (strong_or_better results)
        (medium_or_better results) (weak_or_better results + 1)
        (unplayable_or_better results)
    else results in
  if nonzero (strong draft_result) || nonzero (medium draft_result)
     || nonzero (weak draft_result) || nonzero (unplayable draft_result) then
    mkTotalResults (total_runs results) (strong_or_better results)
      (medium_or_better results) (weak_or_better results)
      (unplayable_or_better results + 1)
  else results.

(** The loop of [test] for [trials] iterations; [results] is
    [self.results]. *)
Fixpoint test_trials (trials : nat) (self : DraftStrategy) (g : Globals)
    (packs : list Pack) (results : TotalResults) (rng : Rng)
    : Result (TotalResults * Rng) :=
  match trials with
  | 0 => Ok (results, rng)
  | S trials' =>
      '(draft_result, rng) ← get_draft_result self g packs rng;
      test_trials trials' self g packs (record_trial draft_result results) rng
  end.

(** [test]: [for _ in range(100000)]. *)
Definition test (self : DraftStrategy) (g : Globals) (packs : list Pack)
    (results : TotalResults) (rng : Rng) : Result (TotalResults * Rng) :=
  test_trials (Z.to_nat 100000) self g packs results rng.

(** ** The decision table of the specification *)

(** The two packs share at least one colour. *)
Definition shares_colour (a b : Pack) : Prop :=
  ∃ c, c ∈ colours a ∧ c ∈ colours b.

(** A creature type in common, or a synergistic pair that bridges the packs. *)
Definition linked (a b : Pack) (S : gset (gset CreatureType)) : Prop :=
  matching_types a b ≠ ∅ ∨ synergistic_types a b S ≠ ∅.

(** [max(|a.colours|, |b.colours|) == 1]. *)
Definition single_coloured (a b : Pack) : Prop :=
  Nat.max (size (colours a)) (size (colours b)) = 1.

(** ** Pairs of a collection *)

(** Every unordered pair of positions of a list once, the earlier element
    first. *)
Fixpoint unordered_pairs {A : Type} (l : list A) : list (A * A) :=
  match l with
  | [] => []
  | x :: rest => ((λ y, (x, y)) <$> rest) ++ unordered_pairs rest
  end.

(** The pairs of a selection as the specification lists them: the anchor
    with each of the others, or every pair among the drafted packs. *)
Definition selection_pairs (sel : Selection) : list (Pack * Pack) :=
  match sel with
  | SelTuple anchor others => (λ other, (anchor, other)) <$> others
  | SelList drafted => unordered_pairs drafted
  end.

(** The match set of a verdict. *)
Definition matches (v : Playability) (g : Globals) : gset (gset string) :=
  match v with
  | STRONG => STRONG_MATCHES g
  | MEDIUM => MEDIUM_MATCHES g
  | WEAK => WEAK_MATCHES g
  | UNPLAYABLE => UNPLAYABLE_MATCHES g
  end.

Definition add_match (v : Playability) (pair : gset string) (g : Globals) : Globals :=
  match v with
  | STRONG => add_strong pair g
  | MEDIUM => add_medium pair g
  | WEAK => add_weak pair g
  | UNPLAYABLE => add_unplayable pair g
  end.

(** Number of entries of the match index. *)
Definition index_size (g : Globals) : nat :=
  size (STRONG_MATCHES g) + size (MEDIUM_MATCHES g)
  + size (WEAK_MATCHES g) + size (UNPLAYABLE_MATCHES g).

(** The key of two labels. *)
Definition pair_key (labels : string * string) : gset string :=
  {[labels.1; labels.2]}.

(** The label of a pack, as a string. *)
Definition label_of (p : Pack) : string :=
  match Pack_str p with
  | Ok label => label
  | Raise _ => ""
  end.

(** The inner loops of [initialize] as a fold: every pair adds its key to
    the set of its verdict. *)
Definition index_pairs (S : gset (gset CreatureType)) (pairs : list (Pack * Pack))
    (g : Globals) : Globals :=
  foldl (λ g pr, add_match (pair_playability pr.1 pr.2 S)
                   (pair_key (label_of pr.1, label_of pr.2)) g) g pairs.

(** The order of the cumulative counters of a [TotalResults]. *)
Definition counters_ordered (results : TotalResults) : Prop :=
  (0 ≤ strong_or_better results ≤ medium_or_better results)%Z ∧
  (medium_or_better results ≤ weak_or_better results)%Z ∧
  (weak_or_better results ≤ unplayable_or_better results)%Z ∧
  (unplayable_or_better results ≤ total_runs results)%Z.

(** The state that [initialize] leaves: the synergy pairs of the packs, then
    the key of every pair of packs in the set of its verdict. *)
Definition built_index (packs : list Pack) (g : Globals) : Globals :=
  let g := foldl (λ g pack, register_synergy pack g) g packs in
  index_pairs (SYNERGISTIC_TYPE_PAIRS g) (unordered_pairs packs) g.

(** ** Sample data *)

Definition pack_a : Pack := mkPack "A" ∅ {[BIRD]}.
Definition pack_b : Pack := mkPack "B" ∅ {[RAT]}.
Definition pack_c : Pack := mkPack "C" ∅ {[BIRD; MOUSE]}.
Definition pack_d : Pack := mkPack "D" ∅ {[FROG]}.
Definition pack_w : Pack := mkPack "Lifecreed" {[WHITE]} {[BIRD]}.
Definition pack_u : Pack := mkPack "Skyskipper" {[BLUE]} {[BIRD; FROG]}.
Definition pack_birds : Pack := mkPack "Birds" {[WHITE; BLUE]} {[BIRD]}.
Definition pack_birds' : Pack := mkPack "Birds" {[WHITE; BLUE]} {[BIRD; MOUSE]}.
Definition pack_frogs : Pack := mkPack "Frogs" {[BLUE; GREEN]} {[FROG]}.
Definition pack_daggerfang : Pack := mkPack "Daggerfang" {[BLACK]} {[RAT]}.
Definition pack_treeguard : Pack := mkPack "Treeguard" {[GREEN]} {[SQUIRREL]}.

(** Three packs: a Strong, an Unplayable and a Weak pair. *)
Definition three_packs : list Pack := [pack_birds; pack_w; pack_daggerfang].

(** Six packs, one of them with one colour and two creature types. *)
Definition six_packs : list Pack :=
  [pack_birds; pack_w; pack_u; pack_frogs; pack_daggerfang; pack_treeguard].

(** An oracle that always answers 0. *)
Definition rng_zero : Rng := mkRng (λ _, 0) 0.

(** The index over the three packs, over the six packs, and over three
    packs of which two have the same label. *)
Definition globals_three : Globals := built_index three_packs module_globals.
Definition globals_six : Globals := built_index six_packs module_globals.
Definition globals_dup : Globals :=
  built_index [pack_birds; pack_birds'; pack_w] module_globals.

(** The report over the three packs. *)
Definition matrix_three : Matrix :=
  mkMatrix [""; "WU Birds"; "W Lifecreed"; "B Daggerfang"]
    [ ["WU Birds"; ""; "Strong"; "Unplayable"];
      ["W Lifecreed"; ""; ""; "Weak"];
      ["B Daggerfang"; ""; ""; ""] ].
(** ** Further vocabulary for the properties *)

(** Position of a verdict in the declaration of [Playability]; [test] keeps
    its cumulative counters in this order. *)
Definition Playability_rank (p : Playability) : nat :=
  match p with
  | UNPLAYABLE => 0
  | WEAK => 1
  | MEDIUM => 2
  | STRONG => 3
  end.

(** The rows that [write_to_file] is to produce for the packs from position
    [number - 1] on: the label, [number] blanks, and the verdicts with the
    packs that follow. *)
Fixpoint matrix_rows (syn : gset (gset CreatureType)) (number : nat)
    (packs : list Pack) : list (list string) :=
  match packs with
  | [] => []
  | p :: rest =>
      ([label_of p] ++ replicate number ""
         ++ ((λ q, Playability_value (pair_playability p q syn)) <$> rest))
      :: matrix_rows syn (S number) rest
  end.

(** Number of pairs that a [DraftResult] has counted. *)
Definition pairs_counted (draft_result : DraftResult) : Z :=
  (strong draft_result + medium draft_result
   + weak draft_result + unplayable draft_result)%Z.

(** No counter of a [DraftResult] is negative. *)
Definition counters_nonneg (draft_result : DraftResult) : Prop :=
  (0 ≤ strong draft_result)%Z ∧ (0 ≤ medium draft_result)%Z ∧
  (0 ≤ weak draft_result)%Z ∧ (0 ≤ unplayable draft_result)%Z.

(** The pair is in the match index: its key is in one of the four sets. *)
Definition indexed (g : Globals) (pr : Pack * Pack) : Prop :=
  ∃ pair v, label_pair pr.1 pr.2 = Ok pair ∧ pair ∈ matches v g.

(** * Properties *)

Section classifier.
Implicit Types a b : Pack.
Implicit Types S : gset (gset CreatureType).

Lemma truthy_true `{Countable A} (X : gset A) : truthy X = true ↔ X ≠ ∅.
Proof. unfold truthy. by rewrite bool_decide_eq_true. Qed.

Lemma truthy_false `{Countable A} (X : gset A) : truthy X = false ↔ X = ∅.
Proof.
  unfold truthy. rewrite bool_decide_eq_false.
  split; [|naive_solver]. intros HX. by destruct (decide (X = ∅)).
Qed.

Lemma elem_of_matching_colours a b c :
  c ∈ matching_colours a b ↔ c ∈ colours a ∧ c ∈ colours b.
Proof. unfold matching_colours. rewrite elem_of_filter. tauto. Qed.

Lemma elem_of_matching_types a b t :
  t ∈ matching_types a b ↔ t ∈ creature_types a ∧ t ∈ creature_types b.
Proof. unfold matching_types. rewrite elem_of_filter. tauto. Qed.

Lemma elem_of_synergistic_types a b S pair :
  pair ∈ synergistic_types a b S ↔
    pair ∈ S ∧ any_in (creature_types b) pair ∧ any_in (creature_types a) pair.
Proof. unfold synergistic_types. rewrite !elem_of_filter. tauto. Qed.

Lemma matching_colours_comm a b : matching_colours a b = matching_colours b a.
Proof. apply set_eq. intros c. rewrite !elem_of_matching_colours. tauto. Qed.

Lemma matching_types_comm a b : matching_types a b = matching_types b a.
Proof. apply set_eq. intros t. rewrite !elem_of_matching_types. tauto. Qed.

Lemma synergistic_types_comm a b S :
  synergistic_types a b S = synergistic_types b a S.
Proof. apply set_eq. intros p. rewrite !elem_of_synergistic_types. tauto. Qed.

Lemma matching_colours_shares a b :
  matching_colours a b ≠ ∅ ↔ shares_colour a b.
Proof.
  unfold shares_colour. split.
  - intros [c Hc]%set_choose_L. exists c. by apply elem_of_matching_colours.
  - intros [c Hc] Hemp. apply elem_of_matching_colours in Hc.
    rewrite Hemp in Hc. set_solver.
Qed.
End classifier.

(** C1: [pair_playability] follows the decision table of the specification,
    row by row: with a shared colour the verdict is Strong when the packs are
    linked by a common or a synergistic type, else Medium when both packs are
    single-coloured, else Weak; without a shared colour it is Medium or Weak
    for linked packs and Weak or Unplayable for the others, the better of
    the two when both packs are single-coloured. *)
Theorem pair_playability_table (a b : Pack) (S : gset (gset CreatureType)) :
  (shares_colour a b ∧ linked a b S → pair_playability a b S = STRONG) ∧
  (shares_colour a b ∧ ¬ linked a b S ∧ single_coloured a b →
     pair_playability a b S = MEDIUM) ∧
  (shares_colour a b ∧ ¬ linked a b S ∧ ¬ single_coloured a b →
     pair_playability a b S = WEAK) ∧
  (¬ shares_colour a b ∧ linked a b S ∧ single_coloured a b →
     pair_playability a b S = MEDIUM) ∧
  (¬ shares_colour a b ∧ linked a b S ∧ ¬ single_coloured a b →
     pair_playability a b S = WEAK) ∧
  (¬ shares_colour a b ∧ ¬ linked a b S ∧ single_coloured a b →
     pair_playability a b S = WEAK) ∧
  (¬ shares_colour a b ∧ ¬ linked a b S ∧ ¬ single_coloured a b →
     pair_playability a b S = UNPLAYABLE).
Proof.
  unfold linked, single_coloured, pair_playability.
  rewrite <- matching_colours_shares.
  destruct (truthy (matching_colours a b)) eqn:Hc;
    [apply truthy_true in Hc | apply truthy_false in Hc];
  (destruct (truthy (matching_types a b)) eqn:Ht;
    [apply truthy_true in Ht | apply truthy_false in Ht]);
  (destruct (truthy (synergistic_types a b S)) eqn:Hs;
    [apply truthy_true in Hs | apply truthy_false in Hs]);
  (destruct (Nat.max (size (colours a)) (size (colours b)) =? 1) eqn:Hm;
    [apply Nat.eqb_eq in Hm | apply Nat.eqb_neq in Hm]);
  simpl; repeat split; intros; try reflexivity; exfalso; tauto.
Qed.

(** C2: swapping the two packs never changes the verdict. *)
Theorem pair_playability_symmetric (a b : Pack) (S : gset (gset CreatureType)) :
  pair_playability a b S = pair_playability b a S.
Proof.
  unfold pair_playability.
  rewrite (matching_colours_comm b a), (matching_types_comm b a),
    (synergistic_types_comm b a), (Nat.max_comm (size (colours b))).
  reflexivity.
Qed.

(** C3: [synergistic_types a b S] is exactly the part of [S] whose pairs
    hold a creature type of [b] and a creature type of [a]; one type that
    both packs have is enough for both conditions. *)
Theorem synergistic_types_exact (a b : Pack) (S : gset (gset CreatureType)) :
  (∀ pair, pair ∈ synergistic_types a b S ↔
     pair ∈ S ∧ (∃ t, t ∈ creature_types b ∧ t ∈ pair)
            ∧ (∃ t, t ∈ creature_types a ∧ t ∈ pair)) ∧
  (∀ pair t, pair ∈ S → t ∈ pair →
     t ∈ creature_types a → t ∈ creature_types b →
     pair ∈ synergistic_types a b S).
Proof.
  assert (Hall : ∀ pair, pair ∈ synergistic_types a b S ↔
     pair ∈ S ∧ (∃ t, t ∈ creature_types b ∧ t ∈ pair)
            ∧ (∃ t, t ∈ creature_types a ∧ t ∈ pair)).
  { intros pair. rewrite elem_of_synergistic_types.
    unfold any_in, set_Exists. reflexivity. }
  split; [exact Hall|].
  intros pair t HS Ht Ha Hb. apply Hall. eauto 10.
Qed.

(** C8: whatever the counters are, the three accessors raise
    [AttributeError]: they read [strong], [mediumn], [medium] and [weak],
    which a [TotalResults] does not have, so no quotient is returned. *)
Theorem chance_accessors_raise (r : TotalResults) :
  strong_or_better_chance r = Raise AttributeError ∧
  medium_or_better_chance r = Raise AttributeError ∧
  weak_or_better_chance r = Raise AttributeError.
Proof. repeat split. Qed.

Section labels.
Implicit Types p : Pack.

(** A label is always computed. *)
Lemma Pack_str_total p : Pack_str p = Ok (label_of p).
Proof. reflexivity. Qed.

Lemma label_pair_total p1 p2 :
  label_pair p1 p2 = Ok (pair_key (label_of p1, label_of p2)).
Proof. reflexivity. Qed.

Lemma Forall_Pack_str (packs : list Pack) :
  Forall (λ p, Pack_str p = Ok (label_of p)) packs.
Proof. apply Forall_forall. intros p _. apply Pack_str_total. Qed.

Lemma Forall_label_pair (pairs : list (Pack * Pack)) :
  Forall (λ pr, Pack_str pr.1 = Ok (label_of pr.1)
              ∧ Pack_str pr.2 = Ok (label_of pr.2)) pairs.
Proof. apply Forall_forall. intros pr _. split; apply Pack_str_total. Qed.
End labels.

Section loops.
Context {A St : Type}.
Implicit Types body : A → St → Result St.

Lemma for_each_app body l1 l2 s :
  for_each body (l1 ++ l2) s = for_each body l1 s ≫= for_each body l2.
Proof.
  revert s. induction l1 as [|x l1 IH]; intros s; [reflexivity|].
  cbn [app for_each]. destruct (body x s) as [s'|e]; [|reflexivity].
  cbn [mbind Result_bind]. apply IH.
Qed.

Lemma for_each_ext body body' l s :
  (∀ x s, x ∈ l → body x s = body' x s) →
  for_each body l s = for_each body' l s.
Proof.
  revert s. induction l as [|x l IH]; intros s Hext; [reflexivity|].
  cbn [for_each]. rewrite Hext by left.
  destruct (body' x s) as [s'|e]; [|reflexivity].
  cbn [mbind Result_bind]. apply IH. intros y t Hy. apply Hext. by right.
Qed.
End loops.

Lemma for_each_fmap {A B St : Type} (f : B → A) (body : A → St → Result St) l s :
  for_each body (f <$> l) s = for_each (λ x, body (f x)) l s.
Proof.
  revert s. induction l as [|x l IH]; intros s; [reflexivity|].
  cbn [fmap list_fmap for_each]. destruct (body (f x) s); [|reflexivity].
  cbn [mbind Result_bind]. apply IH.
Qed.

(** The row loop of [initialize] visits the unordered pairs of the packs. *)
Lemma initialize_rows_pairs before after g :
  initialize_rows (before ++ after)
    (zip (seq (S (length before)) (length after)) after) g
  = for_each (λ pr, initialize_pair pr.1 pr.2) (unordered_pairs after) g.
Proof.
  revert before g. induction after as [|x after IH]; intros before g;
    [reflexivity|].
  cbn [length seq zip zip_with initialize_rows unordered_pairs].
  replace (length (before ++ x :: after) <? S (length before))
    with false by (symmetry; apply Nat.ltb_ge; rewrite length_app; simpl; lia).
  rewrite for_each_app, for_each_fmap.
  replace (drop (S (length before)) (before ++ x :: after))
    with after
    by (change (x :: after) with ([x] ++ after); rewrite app_assoc;
        rewrite drop_app_length'; [done | rewrite length_app; simpl; lia]).
  cbn [fst snd].
  destruct (for_each (initialize_pair x) after g) as [g'|e]; [|reflexivity].
  cbn [mbind Result_bind].
  specialize (IH (before ++ [x]) g').
  rewrite <- app_assoc, length_app in IH. cbn [length app] in IH.
  replace (length before + 1) with (S (length before)) in IH by lia.
  exact IH.
Qed.

Lemma initialize_pairs packs g :
  initialize packs g
  = for_each (λ pr, initialize_pair pr.1 pr.2) (unordered_pairs packs)
      (foldl (λ g pack, register_synergy pack g) g packs).
Proof. unfold initialize, enumerate. apply (initialize_rows_pairs []). Qed.

(** The list branch of [get_draft_result] visits the unordered pairs of the
    drafted packs; its [break] skips the last pack, which has no partner. *)
Lemma count_list_pairs g before after dr :
  count_list g (before ++ after)
    (zip (seq (S (length before)) (length after)) after) dr
  = for_each (λ pr, count_pair g pr.1 pr.2) (unordered_pairs after) dr.
Proof.
  revert before dr. induction after as [|x after IH]; intros before dr;
    [reflexivity|].
  cbn [length seq zip zip_with count_list unordered_pairs].
  rewrite for_each_app, for_each_fmap. cbn [fst snd].
  destruct (S (length before) =? length (before ++ x :: after))
    eqn:Hlast.
  - apply Nat.eqb_eq in Hlast. rewrite length_app in Hlast. simpl in Hlast.
    destruct after; [reflexivity | simpl in Hlast; lia].
  - replace (drop (S (length before)) (before ++ x :: after))
      with after.
    2:{ change (x :: after) with ([x] ++ after). rewrite app_assoc.
        rewrite drop_app_length'; [done | rewrite length_app; simpl; lia]. }
    destruct (for_each (count_pair g x) after dr) as [dr'|e]; [|reflexivity].
    cbn [mbind Result_bind].
    specialize (IH (before ++ [x]) dr').
    rewrite <- app_assoc, length_app in IH. cbn [length app] in IH.
    replace (length before + 1) with (S (length before)) in IH by lia.
    exact IH.
Qed.

Lemma count_selection_pairs g sel :
  count_selection g sel
  = for_each (λ pr, count_pair g pr.1 pr.2) (selection_pairs sel) DraftResult_new.
Proof.
  destruct sel as [drafted|anchor others]; cbn [count_selection selection_pairs].
  - unfold enumerate. apply (count_list_pairs g []).
  - by rewrite for_each_fmap.
Qed.

Section pairs.
Context {A : Type}.
Implicit Types l : list A.

Lemma length_unordered_pairs l :
  2 * length (unordered_pairs l) = length l * (length l - 1).
Proof.
  induction l as [|x l IH]; [reflexivity|].
  cbn [unordered_pairs length]. rewrite length_app, length_fmap. nia.
Qed.

Lemma elem_of_unordered_pairs l a b :
  (a, b) ∈ unordered_pairs l ↔
    ∃ i j, i < j ∧ l !! i = Some a ∧ l !! j = Some b.
Proof.
  induction l as [|x l IH]; cbn [unordered_pairs].
  - split; [by intros ?%elem_of_nil | by intros (i & j & _ & ? & _)].
  - rewrite elem_of_app, list_elem_of_fmap, IH. split.
    + intros [(y & [= -> ->] & Hy) | (i & j & Hij & Hi & Hj)].
      * apply list_elem_of_lookup in Hy as [j Hj].
        exists 0, (S j). split; [lia | done].
      * exists (S i), (S j). split; [lia | done].
    + intros (i & j & Hij & Hi & Hj).
      destruct j as [|j]; [lia|]. destruct i as [|i]; simplify_eq/=.
      * left. exists b. split; [done|]. by apply list_elem_of_lookup_2 in Hj.
      * right. exists i, j. split; [lia | done].
Qed.

Lemma elem_of_unordered_pairs_members l a b :
  (a, b) ∈ unordered_pairs l → a ∈ l ∧ b ∈ l.
Proof.
  intros (i & j & _ & Hi & Hj)%elem_of_unordered_pairs.
  split; by eapply list_elem_of_lookup_2.
Qed.
End pairs.

Lemma unordered_pairs_fmap {A B : Type} (f : A → B) (l : list A) :
  unordered_pairs (f <$> l) = (λ pr, (f pr.1, f pr.2)) <$> unordered_pairs l.
Proof.
  induction l as [|x l IH]; [reflexivity|].
  cbn [fmap list_fmap unordered_pairs]. rewrite fmap_app, IH.
  f_equal. rewrite <- !list_fmap_compose. reflexivity.
Qed.

(** C6: the evaluator counts over exactly the pairs of the selection: the
    anchor with each of the others for a tuple, and for a list of [k] packs
    each of its [k (k - 1) / 2] pairs of positions once. *)
Theorem get_draft_result_pairs (self : DraftStrategy) (g : Globals)
    (packs : list Pack) (rng : Rng) :
  get_draft_result self g packs rng
    = ('(sel, rng') ← draft self packs rng;
       draft_result ← for_each (λ pr, count_pair g pr.1 pr.2)
                        (selection_pairs sel) DraftResult_new;
       mret (draft_result, rng')) ∧
  (∀ anchor others,
     selection_pairs (SelTuple anchor others) = (λ other, (anchor, other)) <$> others) ∧
  (∀ drafted,
     length (selection_pairs (SelList drafted))
       = length drafted * (length drafted - 1) / 2 ∧
     ∀ a b, (a, b) ∈ selection_pairs (SelList drafted) ↔
       ∃ i j, i < j ∧ drafted !! i = Some a ∧ drafted !! j = Some b).
Proof.
  split; [|split].
  - unfold get_draft_result.
    destruct (draft self packs rng) as [[sel rng']|e]; [|reflexivity].
    cbn [mbind Result_bind]. by rewrite count_selection_pairs.
  - reflexivity.
  - intros drafted. cbn [selection_pairs]. split.
    + pose proof (length_unordered_pairs drafted) as Hlen.
      rewrite <- Hlen, Nat.mul_comm. symmetry. apply Nat.div_mul. lia.
    + intros a b. apply elem_of_unordered_pairs.
Qed.

(** A pair that none of the four sets holds leaves the counters alone. *)
Lemma count_pair_miss g p1 p2 dr pair :
  label_pair p1 p2 = Ok pair →
  (∀ v, pair ∉ matches v g) →
  count_pair g p1 p2 dr = Ok dr.
Proof.
  intros Hl Hmiss. unfold count_pair. rewrite Hl. cbn [mbind Result_bind].
  pose proof (Hmiss STRONG). pose proof (Hmiss MEDIUM).
  pose proof (Hmiss WEAK). pose proof (Hmiss UNPLAYABLE).
  cbn [matches] in *. by repeat case_decide.
Qed.

(** C9, as the code has it: a pair of the selection that was never indexed
    is skipped.  The evaluator raises nothing for it and returns what it
    returns for the selection without that pair. *)
Theorem lookup_miss_skipped (self : DraftStrategy) (g : Globals)
    (packs : list Pack) (rng rng' : Rng) (sel : Selection)
    (before after : list (Pack * Pack)) (p1 p2 : Pack) (pair : gset string) :
  draft self packs rng = Ok (sel, rng') →
  selection_pairs sel = before ++ (p1, p2) :: after →
  label_pair p1 p2 = Ok pair →
  (∀ v, pair ∉ matches v g) →
  get_draft_result self g packs rng
    = (draft_result ← for_each (λ pr, count_pair g pr.1 pr.2)
                         (before ++ after) DraftResult_new;
       mret (draft_result, rng')).
Proof.
  intros Hd Hsel Hl Hmiss. unfold get_draft_result. rewrite Hd.
  cbn [mbind Result_bind]. rewrite count_selection_pairs, Hsel.
  rewrite !for_each_app.
  destruct (for_each _ before DraftResult_new) as [dr|e]; [|reflexivity].
  cbn [mbind Result_bind for_each fst snd].
  by rewrite (count_pair_miss g p1 p2 dr pair).
Qed.

Lemma lookup_miss_skipped_witness :
  get_draft_result DrawThreeStrategy module_globals three_packs rng_zero
    = Ok (DraftResult_new, mkRng (λ _, 0) 3).
Proof.
  rewrite (lookup_miss_skipped DrawThreeStrategy module_globals
             three_packs rng_zero (mkRng (λ _, 0) 3)
             (SelList three_packs)
             [] [(pack_birds, pack_daggerfang); (pack_w, pack_daggerfang)]
             pack_birds pack_w {["WU Birds"; "W Lifecreed"]}).
  - vm_compute. reflexivity.
  - vm_compute. reflexivity.
  - reflexivity.
  - vm_compute. reflexivity.
  - intros v. destruct v; cbn [matches module_globals STRONG_MATCHES
      MEDIUM_MATCHES WEAK_MATCHES UNPLAYABLE_MATCHES]; apply not_elem_of_empty.
Defined.

(** C9 fails as stated: over an index that was never filled, the pairs of a
    draft of three are all missing from it, and the evaluator returns the
    zero counts without raising. *)
Lemma lookup_miss_not_fatal :
  (∃ pair, label_pair pack_birds pack_w = Ok pair ∧
           ∀ v, pair ∉ matches v module_globals) ∧
  draft DrawThreeStrategy three_packs rng_zero
    = Ok (SelList three_packs, mkRng (λ _, 0) 3) ∧
  get_draft_result DrawThreeStrategy module_globals three_packs rng_zero
    = Ok (DraftResult_new, mkRng (λ _, 0) 3).
Proof.
  split; [|split].
  - exists {["WU Birds"; "W Lifecreed"]}. split; [vm_compute; reflexivity|].
    intros []; apply not_elem_of_empty.
  - vm_compute. reflexivity.
  - vm_compute. reflexivity.
Qed.

Section evaluator.
Implicit Types results : TotalResults.

Lemma record_trial_counts dr results :
  counters_ordered results →
  total_runs (record_trial dr results) = (total_runs results + 1)%Z ∧
  counters_ordered (record_trial dr results).
Proof.
  destruct results as [runs s m w u].
  unfold counters_ordered, record_trial. cbn [total_runs strong_or_better
    medium_or_better weak_or_better unplayable_or_better]. intros Hord.
  destruct (nonzero (strong dr)), (nonzero (medium dr)),
    (nonzero (weak dr)), (nonzero (unplayable dr));
    cbn [orb total_runs strong_or_better medium_or_better weak_or_better
         unplayable_or_better]; lia.
Qed.

Lemma test_trials_counts trials self g packs results rng res rng' :
  test_trials trials self g packs results rng = Ok (res, rng') →
  counters_ordered results →
  total_runs res = (total_runs results + Z.of_nat trials)%Z ∧
  counters_ordered res.
Proof.
  revert results rng. induction trials as [|trials IH]; intros results rng.
  - cbn [test_trials]. intros [= -> ->] Hord. split; [lia | done].
  - cbn [test_trials].
    destruct (get_draft_result self g packs rng) as [[dr rng1]|e]; [|done].
    cbn [mbind Result_bind]. intros Hrun Hord.
    destruct (record_trial_counts dr results Hord) as [Hruns Hord'].
    destruct (IH _ _ Hrun Hord') as [Htotal Hres]. split; [lia | done].
Qed.

(** The loop only stops early when a trial raises. *)
Lemma test_trials_returns trials self g packs results rng :
  (∀ rng, ∃ dr rng', get_draft_result self g packs rng = Ok (dr, rng')) →
  ∃ res rng', test_trials trials self g packs results rng = Ok (res, rng').
Proof.
  intros Hok. revert results rng.
  induction trials as [|trials IH]; intros results rng; cbn [test_trials].
  - eauto.
  - destruct (Hok rng) as (dr & rng1 & ->). cbn [mbind Result_bind]. apply IH.
Qed.
End evaluator.

(** [test] itself: the count of trials is fixed at 100000. *)
Lemma test_counts self g packs rng res rng' :
  test self g packs TotalResults_new rng = Ok (res, rng') →
  total_runs res = 100000%Z ∧ counters_ordered res.
Proof.
  unfold test. intros Hrun.
  destruct (test_trials_counts _ _ _ _ _ _ _ _ Hrun) as [Htotal Hord].
  { unfold counters_ordered, TotalResults_new. cbn. lia. }
  split; [|done]. rewrite Htotal. cbn [total_runs TotalResults_new].
  rewrite Z2Nat.id; lia.
Qed.

(** C5: a run of [T] trials that starts from fresh results reports
    [total_runs = T], and its cumulative counters are ordered: strong,
    medium, weak, unplayable, total. *)
Theorem test_reports (T : nat) (self : DraftStrategy) (g : Globals)
    (packs : list Pack) (rng rng' : Rng) (res : TotalResults) :
  test_trials T self g packs TotalResults_new rng = Ok (res, rng') →
  total_runs res = Z.of_nat T ∧
  (strong_or_better res ≤ medium_or_better res)%Z ∧
  (medium_or_better res ≤ weak_or_better res)%Z ∧
  (weak_or_better res ≤ unplayable_or_better res)%Z ∧
  (unplayable_or_better res ≤ total_runs res)%Z.
Proof.
  intros Hrun.
  destruct (test_trials_counts _ _ _ _ _ _ _ _ Hrun) as [Htotal Hord].
  { unfold counters_ordered, TotalResults_new. cbn. lia. }
  unfold counters_ordered in Hord. cbn in Htotal. split; [lia|]. tauto.
Qed.

Lemma test_reports_witness :
  test_trials 4 DrawThreeStrategy globals_three three_packs
       TotalResults_new rng_zero
    = Ok (mkTotalResults 4 4 4 4 4, mkRng (λ _, 0) 12) ∧
  total_runs (mkTotalResults 4 4 4 4 4) = Z.of_nat 4.
Proof.
  assert (Hrun : test_trials 4 DrawThreeStrategy globals_three
            three_packs TotalResults_new rng_zero
          = Ok (mkTotalResults 4 4 4 4 4, mkRng (λ _, 0) 12)).
  { vm_compute. reflexivity. }
  split; [exact Hrun|].
  exact (proj1 (test_reports _ _ _ _ _ _ _ Hrun)).
Defined.

Section sampling.
Context {A : Type}.
Implicit Types pool population : list A.

(** A sample is a reordering of part of the pool, one element per draw. *)
Lemma sample_pool_permutation pool k rng res rng' :
  sample_pool pool k rng = Ok (res, rng') →
  length res = k ∧ ∃ rest, pool ≡ₚ res ++ rest.
Proof.
  revert pool rng res rng'. induction k as [|k IH]; intros pool rng res rng'.
  - cbn [sample_pool]. intros [= <- <-]. split; [done|]. by exists pool.
  - cbn [sample_pool randbelow].
    set (j := tape rng (cursor rng) mod length pool).
    destruct (pool !! j) as [x|] eqn:Hj; [|done].
    destruct (sample_pool (delete j pool) k _) as [[res1 rng1]|e] eqn:Hrec;
      [|done].
    cbn [mbind Result_bind mret Result_ret]. intros [= <- <-].
    destruct (IH _ _ _ _ Hrec) as [Hlen [rest Hperm]].
    split; [simpl; lia|]. exists rest.
    rewrite (delete_Permutation pool j x Hj), Hperm. done.
Qed.

Lemma sample_permutation population k rng res rng' :
  sample population k rng = Ok (res, rng') →
  length res = k ∧ ∃ rest, population ≡ₚ res ++ rest.
Proof.
  unfold sample. case_match; [done|]. apply sample_pool_permutation.
Qed.

Lemma sample_elem_of population k rng res rng' x :
  sample population k rng = Ok (res, rng') → x ∈ res → x ∈ population.
Proof.
  intros (_ & rest & Hperm)%sample_permutation Hx.
  rewrite Hperm. apply elem_of_app. by left.
Qed.

Lemma sample_NoDup population k rng res rng' :
  sample population k rng = Ok (res, rng') → NoDup population → NoDup res.
Proof.
  intros (_ & rest & Hperm)%sample_permutation Hnd.
  rewrite Hperm in Hnd. by apply NoDup_app in Hnd as [? _].
Qed.

(** A sample no larger than the population is always returned. *)
Lemma sample_returns population k rng :
  k ≤ length population →
  ∃ res rng', sample population k rng = Ok (res, rng').
Proof.
  intros Hk. unfold sample.
  replace (length population <? k) with false
    by (symmetry; apply Nat.ltb_ge; lia).
  revert population rng Hk. induction k as [|k IH]; intros pool rng Hk.
  - cbn [sample_pool]. eauto.
  - cbn [sample_pool randbelow].
    set (j := tape rng (cursor rng) mod length pool).
    assert (Hj : j < length pool) by (apply Nat.mod_upper_bound; lia).
    destruct (lookup_lt_is_Some_2 pool j Hj) as [x ->].
    destruct (IH (delete j pool) (mkRng (tape rng) (S (cursor rng))))
      as (res & rng' & ->).
    { rewrite length_delete by (by apply lookup_lt_is_Some_2). lia. }
    cbn [mbind Result_bind mret Result_ret]. eauto.
Qed.

Lemma choice_elem_of (seq : list A) rng x rng' :
  choice seq rng = Ok (x, rng') → x ∈ seq.
Proof.
  unfold choice. destruct seq as [|y seq]; [done|]. cbn [randbelow].
  destruct ((y :: seq) !! _) as [z|] eqn:Hz; [|done].
  intros [= <- <-]. by eapply list_elem_of_lookup_2.
Qed.
End sampling.

(** C7, as the code has it: the anchor is one of the first three sampled
    packs; the second three are three packs, none of them among the first
    three, so the anchor is not one of them; and they are three distinct
    packs whenever the collection holds no pack twice. *)
Theorem draw_three_twice_disjoint (packs : list Pack) (rng rng' : Rng)
    (anchor : Pack) (second_three : list Pack) :
  draft DrawThreeTwiceStrategy packs rng = Ok (SelTuple anchor second_three, rng') →
  ∃ first_three rng1,
    sample packs 3 rng = Ok (first_three, rng1) ∧
    anchor ∈ first_three ∧
    length second_three = 3 ∧
    (∀ pack, pack ∈ second_three → pack ∉ first_three) ∧
    (anchor ∉ second_three) ∧
    (NoDup packs → NoDup second_three).
Proof.
  cbn [draft DrawThreeTwiceStrategy]. unfold draw_three_twice.
  destruct (sample packs 3 rng) as [[first_three rng1]|e] eqn:Hfirst; [|done].
  cbn [mbind Result_bind].
  destruct (choice first_three rng1) as [[first_pick rng2]|e] eqn:Hpick; [|done].
  cbn [mbind Result_bind].
  destruct (sample (filter _ packs) 3 rng2) as [[second rng3]|e] eqn:Hsecond;
    [|done].
  cbn [mbind Result_bind mret Result_ret]. intros [= -> -> ->].
  exists first_three, rng1.
  assert (Hdisj : ∀ pack, pack ∈ second_three → pack ∉ first_three).
  { intros pack Hin. eapply sample_elem_of in Hin; [|exact Hsecond].
    by apply list_elem_of_filter in Hin as [? _]. }
  apply choice_elem_of in Hpick.
  split; [done|]. split; [done|].
  split; [by apply sample_permutation in Hsecond as [? _]|].
  split; [done|].
  split; [intros Hin; by apply (Hdisj anchor)|].
  intros Hnd. eapply sample_NoDup; [exact Hsecond | by apply NoDup_filter].
Qed.

Lemma draw_three_twice_disjoint_witness :
  ∃ first_three rng1,
    sample six_packs 3 rng_zero = Ok (first_three, rng1) ∧
    pack_birds ∈ first_three ∧
    length [pack_frogs; pack_daggerfang; pack_treeguard] = 3 ∧
    (∀ pack, pack ∈ [pack_frogs; pack_daggerfang; pack_treeguard] →
             pack ∉ first_three) ∧
    (pack_birds ∉ [pack_frogs; pack_daggerfang; pack_treeguard]) ∧
    (NoDup six_packs → NoDup [pack_frogs; pack_daggerfang; pack_treeguard]).
Proof.
  apply (draw_three_twice_disjoint six_packs rng_zero (mkRng (λ _, 0) 7)).
  vm_compute. reflexivity.
Defined.

(** C7 fails as stated when the collection repeats a pack: the second three
    can then be three equal packs. *)
Lemma draw_three_twice_repeats :
  draft DrawThreeTwiceStrategy
      [pack_a; pack_b; pack_c; pack_d; pack_d; pack_d] rng_zero
    = Ok (SelTuple pack_a [pack_d; pack_d; pack_d], mkRng (λ _, 0) 7) ∧
  ¬ NoDup [pack_d; pack_d; pack_d].
Proof.
  split; [vm_compute; reflexivity|].
  intros Hnd. apply NoDup_cons in Hnd as [Hd _]. apply Hd. left.
Qed.

Section index.
Implicit Types g : Globals.
Implicit Types v : Playability.
Implicit Types pairs : list (Pack * Pack).

Lemma label_pair_ok p1 p2 :
  Pack_str p1 = Ok (label_of p1) → Pack_str p2 = Ok (label_of p2) →
  label_pair p1 p2 = Ok (pair_key (label_of p1, label_of p2)).
Proof. intros H1 H2. unfold label_pair. by rewrite H1, H2. Qed.

Lemma record_match_ok v p1 p2 g pair :
  label_pair p1 p2 = Ok pair →
  record_match v p1 p2 g = Ok (add_match v pair g).
Proof. intros Hl. unfold record_match. destruct v; cbn; by rewrite Hl. Qed.

Lemma initialize_pair_ok p1 p2 g pair :
  label_pair p1 p2 = Ok pair →
  initialize_pair p1 p2 g
  = Ok (add_match (pair_playability p1 p2 (SYNERGISTIC_TYPE_PAIRS g)) pair g).
Proof. intros Hl. unfold initialize_pair. by apply record_match_ok. Qed.

Lemma SYNERGISTIC_add_match v pair g :
  SYNERGISTIC_TYPE_PAIRS (add_match v pair g) = SYNERGISTIC_TYPE_PAIRS g.
Proof. by destruct v. Qed.

Lemma matches_add_match v v' pair g :
  matches v (add_match v' pair g)
  = if decide (v' = v) then {[pair]} ∪ matches v g else matches v g.
Proof. by destruct v, v'. Qed.

Lemma matches_register_synergy v packs g :
  matches v (foldl (λ g pack, register_synergy pack g) g packs) = matches v g.
Proof.
  revert g. induction packs as [|p packs IH]; intros g; [reflexivity|].
  cbn [foldl]. rewrite IH. unfold register_synergy.
  case_match; [|reflexivity]. by destruct v.
Qed.

Lemma SYNERGISTIC_index_pairs S pairs g :
  SYNERGISTIC_TYPE_PAIRS (index_pairs S pairs g) = SYNERGISTIC_TYPE_PAIRS g.
Proof.
  unfold index_pairs. revert g.
  induction pairs as [|pr pairs IH]; intros g; [reflexivity|].
  cbn [foldl]. by rewrite IH, SYNERGISTIC_add_match.
Qed.

(** With all labels at hand the inner loops never raise. *)
Lemma for_each_initialize_pair pairs g :
  Forall (λ pr, Pack_str pr.1 = Ok (label_of pr.1)
              ∧ Pack_str pr.2 = Ok (label_of pr.2)) pairs →
  for_each (λ pr, initialize_pair pr.1 pr.2) pairs g
  = Ok (index_pairs (SYNERGISTIC_TYPE_PAIRS g) pairs g).
Proof.
  revert g. induction pairs as [|pr pairs IH]; intros g Hl; [reflexivity|].
  apply Forall_cons in Hl as [[H1 H2] Hl]. cbn [for_each].
  rewrite (initialize_pair_ok _ _ _ _ (label_pair_ok _ _ H1 H2)).
  cbn [mbind Result_bind]. rewrite IH by done.
  by rewrite SYNERGISTIC_add_match.
Qed.

Lemma matches_index_pairs S pairs g v :
  matches v (index_pairs S pairs g)
  = list_to_set ((λ pr, pair_key (label_of pr.1, label_of pr.2))
                   <$> filter (λ pr, pair_playability pr.1 pr.2 S = v) pairs)
    ∪ matches v g.
Proof.
  unfold index_pairs. revert g.
  induction pairs as [|pr pairs IH]; intros g.
  - cbn. by rewrite (left_id_L ∅ (∪)).
  - cbn [foldl]. rewrite IH, matches_add_match, filter_cons.
    case_decide; [|reflexivity].
    cbn [fmap list_fmap list_to_set]. by rewrite (assoc_L (∪)), (comm_L (∪) _ {[_]}).
Qed.
End index.

Section counting.
Context {A : Type}.

Lemma filter_verdict_lengths (f : A → Playability) (l : list A) :
  length (filter (λ x, f x = STRONG) l) + length (filter (λ x, f x = MEDIUM) l)
  + length (filter (λ x, f x = WEAK) l) + length (filter (λ x, f x = UNPLAYABLE) l)
  = length l.
Proof.
  induction l as [|x l IH]; [reflexivity|].
  rewrite !filter_cons.
  destruct (f x); repeat case_decide; try done; simpl; lia.
Qed.

Lemma NoDup_fmap_filter {B : Type} (f : A → B) (P : A → Prop)
    `{∀ x, Decision (P x)} (l : list A) :
  NoDup (f <$> l) → NoDup (f <$> filter P l).
Proof.
  intros Hnd. apply (sublist_NoDup _ _ Hnd), fmap_sublist, sublist_filter.
Qed.

Lemma NoDup_fmap_eq {B : Type} (f : A → B) (l : list A) x y :
  NoDup (f <$> l) → x ∈ l → y ∈ l → f x = f y → x = y.
Proof.
  induction l as [|z l IH]; [by intros _ ?%elem_of_nil|].
  cbn [fmap list_fmap]. intros [Hz Hnd]%NoDup_cons.
  intros [->|Hx]%elem_of_cons [->|Hy]%elem_of_cons Heq; [done | | | by apply IH].
  - exfalso. apply Hz. rewrite Heq. by apply list_elem_of_fmap_2.
  - exfalso. apply Hz. rewrite <- Heq. by apply list_elem_of_fmap_2.
Qed.
End counting.

Section keys.
Implicit Types labels : list string.

Lemma pair_key_comm (x y : string) : pair_key (x, y) = pair_key (y, x).
Proof. unfold pair_key. cbn [fst snd]. apply (comm_L (∪)). Qed.

(** Distinct labels give every pair of positions a key of its own. *)
Lemma NoDup_pair_keys labels :
  NoDup labels → NoDup (pair_key <$> unordered_pairs labels).
Proof.
  induction 1 as [|x labels Hx Hnd IH]; [constructor|].
  cbn [unordered_pairs]. rewrite fmap_app. apply NoDup_app. split; [|split].
  - rewrite <- list_fmap_compose. apply NoDup_fmap_2_strong; [|done].
    intros y y' Hy Hy' Heq. unfold compose, pair_key in Heq. cbn [fst snd] in Heq.
    assert (y ∈ ({[x; y']} : gset string)) as Hin
      by (rewrite <- Heq; apply elem_of_union_r; by apply elem_of_singleton).
    apply elem_of_union in Hin as [->%elem_of_singleton | ?%elem_of_singleton];
      done.
  - intros k (pr & -> & (y & -> & Hy)%list_elem_of_fmap)%list_elem_of_fmap.
    intros ([a b] & Heq & [Ha Hb]%elem_of_unordered_pairs_members)%list_elem_of_fmap.
    unfold pair_key in Heq. cbn [fst snd] in Heq.
    assert (x ∈ ({[a; b]} : gset string)) as Hin
      by (rewrite <- Heq; apply elem_of_union_l; by apply elem_of_singleton).
    apply elem_of_union in Hin as [->%elem_of_singleton | ->%elem_of_singleton];
      done.
  - exact IH.
Qed.
End keys.

Lemma Forall2_Pack_str (packs : list Pack) (labels : list string) :
  Forall2 (λ p l, Pack_str p = Ok l) packs labels →
  labels = label_of <$> packs ∧
  Forall (λ p, Pack_str p = Ok (label_of p)) packs.
Proof.
  induction 1 as [|p l packs labels Hp _ [-> IH]]; [by split|].
  assert (label_of p = l) as Hl by (unfold label_of; by rewrite Hp).
  split; [by rewrite fmap_cons, Hl|].
  constructor; [by rewrite Hl | done].
Qed.

(** C4, as the code has it: over packs whose display labels are pairwise
    distinct, [initialize] from the empty match sets returns; the four match
    sets then hold [n (n - 1) / 2] entries in all, the key of any two packs
    at different positions, taken in either order, is in the set of their
    verdict and in no other, and every entry is the key of two packs. *)
Theorem initialize_index (packs : list Pack) (labels : list string) :
  Forall2 (λ p l, Pack_str p = Ok l) packs labels →
  NoDup labels →
  ∃ g, initialize packs module_globals = Ok g ∧
    index_size g = length packs * (length packs - 1) / 2 ∧
    (∀ i j pi pj, i ≠ j → packs !! i = Some pi → packs !! j = Some pj →
       ∃ pair, label_pair pi pj = Ok pair ∧
         ∀ v, pair ∈ matches v g ↔
              v = pair_playability pi pj (SYNERGISTIC_TYPE_PAIRS g)) ∧
    (∀ v pair, pair ∈ matches v g →
       ∃ i j pi pj, i < j ∧ packs !! i = Some pi ∧ packs !! j = Some pj ∧
         label_pair pi pj = Ok pair).
Proof.
  intros [-> Hstr]%Forall2_Pack_str Hnd.
  set (g1 := foldl (λ g pack, register_synergy pack g) module_globals packs).
  set (S0 := SYNERGISTIC_TYPE_PAIRS g1).
  set (pairs := unordered_pairs packs).
  set (keyp := λ pr : Pack * Pack, pair_key (label_of pr.1, label_of pr.2)).
  set (verdict := λ pr : Pack * Pack, pair_playability pr.1 pr.2 S0).
  assert (Hpairs : Forall (λ pr, Pack_str pr.1 = Ok (label_of pr.1)
                               ∧ Pack_str pr.2 = Ok (label_of pr.2)) pairs).
  { apply Forall_forall. intros [a b] [Ha Hb]%elem_of_unordered_pairs_members.
    rewrite Forall_forall in Hstr. split; by apply Hstr. }
  assert (Hkeys : NoDup (keyp <$> pairs)).
  { apply NoDup_pair_keys in Hnd. rewrite unordered_pairs_fmap in Hnd.
    by rewrite <- list_fmap_compose in Hnd. }
  assert (Hm : ∀ v, matches v (index_pairs S0 pairs g1)
                 = list_to_set (keyp <$> filter (λ pr, verdict pr = v) pairs)).
  { intros v. rewrite matches_index_pairs. subst g1.
    rewrite matches_register_synergy.
    replace (matches v module_globals) with (∅ : gset (gset string))
      by by destruct v.
    by rewrite (right_id_L ∅ (∪)). }
  assert (Hin : ∀ a b, (a, b) ∈ pairs →
            label_pair a b = Ok (keyp (a, b)) ∧
            ∀ v, keyp (a, b) ∈ matches v (index_pairs S0 pairs g1)
                 ↔ v = verdict (a, b)).
  { intros a b Hab. split.
    - rewrite Forall_forall in Hpairs. destruct (Hpairs _ Hab) as [Ha Hb].
      by apply label_pair_ok.
    - intros v. rewrite Hm, elem_of_list_to_set, list_elem_of_fmap. split.
      + intros (pr & Heq & [Hv Hpr]%list_elem_of_filter).
        by rewrite (NoDup_fmap_eq keyp pairs _ _ Hkeys Hab Hpr Heq).
      + intros ->. exists (a, b). split; [done|].
        by apply list_elem_of_filter. }
  exists (index_pairs S0 pairs g1). split; [|split; [|split]].
  - rewrite initialize_pairs. fold g1. by rewrite for_each_initialize_pair.
  - unfold index_size.
    change (STRONG_MATCHES ?g) with (matches STRONG g).
    change (MEDIUM_MATCHES ?g) with (matches MEDIUM g).
    change (WEAK_MATCHES ?g) with (matches WEAK g).
    change (UNPLAYABLE_MATCHES ?g) with (matches UNPLAYABLE g).
    rewrite !Hm, !size_list_to_set by by apply NoDup_fmap_filter.
    rewrite !length_fmap, (filter_verdict_lengths verdict pairs).
    pose proof (length_unordered_pairs packs) as Hlen. fold pairs in Hlen.
    rewrite <- Hlen, Nat.mul_comm. symmetry. apply Nat.div_mul. lia.
  - rewrite SYNERGISTIC_index_pairs. fold S0.
    intros i j pi pj Hij Hi Hj.
    destruct (decide (i < j)) as [Hlt|Hge].
    + assert ((pi, pj) ∈ pairs) as Hab
        by (apply elem_of_unordered_pairs; eauto).
      destruct (Hin _ _ Hab) as [Hl Hv]. eauto.
    + assert ((pj, pi) ∈ pairs) as Hab
        by (apply elem_of_unordered_pairs; exists j, i; split; [lia | done]).
      destruct (Hin _ _ Hab) as [Hl Hv].
      assert (keyp (pi, pj) = keyp (pj, pi)) as Hk by apply pair_key_comm.
      assert (pair_playability pi pj S0 = verdict (pj, pi)) as Hsym.
      { unfold verdict, pair_playability. cbn [fst snd].
        by rewrite (matching_colours_comm pj pi), (matching_types_comm pj pi),
          (synergistic_types_comm pj pi), (Nat.max_comm (size (colours pj))). }
      exists (keyp (pi, pj)). split.
      * rewrite Forall_forall in Hpairs. destruct (Hpairs _ Hab) as [Ha Hb].
        by apply label_pair_ok.
      * intros v. by rewrite Hk, Hsym.
  - intros v pair. rewrite Hm, elem_of_list_to_set, list_elem_of_fmap.
    intros ([a b] & -> & [_ Hab]%list_elem_of_filter).
    destruct (Hin _ _ Hab) as [Hl _].
    apply elem_of_unordered_pairs in Hab as (i & j & Hij & Hi & Hj).
    by exists i, j, a, b.
Qed.

(** What [initialize] returns. *)
Lemma initialize_eq (packs : list Pack) (g : Globals) :
  initialize packs g = Ok (built_index packs g).
Proof.
  rewrite initialize_pairs. unfold built_index.
  apply for_each_initialize_pair, Forall_label_pair.
Qed.

Lemma initialize_index_witness :
  Forall2 (λ p l, Pack_str p = Ok l)
    three_packs ["WU Birds"; "W Lifecreed"; "B Daggerfang"] ∧
  NoDup ["WU Birds"; "W Lifecreed"; "B Daggerfang"] ∧
  ∃ g, initialize three_packs module_globals = Ok g ∧
       index_size g = 3.
Proof.
  assert (Hstr : Forall2 (λ p l, Pack_str p = Ok l)
                   three_packs ["WU Birds"; "W Lifecreed"; "B Daggerfang"])
    by (repeat constructor).
  assert (Hnd : NoDup ["WU Birds"; "W Lifecreed"; "B Daggerfang"])
    by (apply (bool_decide_unpack _); vm_compute; exact I).
  split; [exact Hstr|]. split; [exact Hnd|].
  destruct (initialize_index _ _ Hstr Hnd) as (g & Hg & Hsize & _).
  exists g. split; [exact Hg | exact Hsize].
Defined.

(** C4 fails as stated: three distinct packs, two of them with the same
    display label, leave two entries in the index instead of three. *)
Lemma initialize_duplicate_labels :
  NoDup [pack_birds; pack_birds'; pack_w] ∧
  Pack_str pack_birds = Pack_str pack_birds' ∧
  initialize [pack_birds; pack_birds'; pack_w] module_globals = Ok globals_dup ∧
  index_size globals_dup = 2 ∧
  length [pack_birds; pack_birds'; pack_w]
    * (length [pack_birds; pack_birds'; pack_w] - 1) / 2 = 3.
Proof.
  split; [apply (bool_decide_unpack _); vm_compute; exact I|].
  split; [reflexivity|].
  split; [apply initialize_eq|].
  split; vm_compute; reflexivity.
Qed.


(** * Further properties of the classifier *)

(** X1: [creature_type] returns a type exactly when it is the only creature
    type of the pack, and raises [AttributeError] exactly when the pack does
    not have one creature type; the list index never fails. *)
Theorem creature_type_single (p : Pack) :
  (∀ t, creature_type p = Ok t ↔ creature_types p = {[t]}) ∧
  (creature_type p = Raise AttributeError ↔ size (creature_types p) ≠ 1) ∧
  creature_type p ≠ Raise IndexError.
Proof.
  unfold creature_type.
  destruct (size (creature_types p) =? 1) eqn:Hsize;
    [apply Nat.eqb_eq in Hsize | apply Nat.eqb_neq in Hsize].
  - destruct (size_1_elem_of _ Hsize) as [x Hx%leibniz_equiv].
    rewrite Hx, elements_singleton. split; [|split].
    + intros t. split; [by intros [= ->]|].
      intros Heq. f_equal. apply (elem_of_singleton (C:=gset CreatureType)).
      rewrite <- Heq. by apply elem_of_singleton.
    + rewrite size_singleton. split; [done | by intros []].
    + done.
  - split; [|split]; [|done|done].
    intros t. split; [done|]. intros Heq. rewrite Heq, size_singleton in Hsize.
    done.
Qed.

(** X2: [colour] returns a colour exactly when it is the only colour of the
    pack, and raises [AttributeError] exactly when the pack does not have one
    colour; the list index never fails. *)
Theorem colour_single (p : Pack) :
  (∀ c, colour p = Ok c ↔ colours p = {[c]}) ∧
  (colour p = Raise AttributeError ↔ size (colours p) ≠ 1) ∧
  colour p ≠ Raise IndexError.
Proof.
  unfold colour.
  destruct (size (colours p) =? 1) eqn:Hsize;
    [apply Nat.eqb_eq in Hsize | apply Nat.eqb_neq in Hsize].
  - destruct (size_1_elem_of _ Hsize) as [x Hx%leibniz_equiv].
    rewrite Hx, elements_singleton. split; [|split].
    + intros c. split; [by intros [= ->]|].
      intros Heq. f_equal. apply (elem_of_singleton (C:=gset Colour)).
      rewrite <- Heq. by apply elem_of_singleton.
    + rewrite size_singleton. split; [done | by intros []].
    + done.
  - split; [|split]; [|done|done].
    intros c. split; [done|]. intros Heq. rewrite Heq, size_singleton in Hsize.
    done.
Qed.

Section display_labels.
Implicit Types p q : Pack.



Lemma join_colour_cons (c : Colour) (l : list Colour) :
  join "" (Colour_str <$> c :: l) = Colour_str c +:+ join "" (Colour_str <$> l).
Proof. destruct l; [by destruct c | reflexivity]. Qed.

(** The letters of the colours end at the first space of a label. *)
Lemma label_inj (l l' : list Colour) (n n' : string) :
  join "" (Colour_str <$> l) +:+ " " +:+ n
    = join "" (Colour_str <$> l') +:+ " " +:+ n' →
  l = l' ∧ n = n'.
Proof.
  revert l'. induction l as [|c l IH]; intros [|c' l'].
  - unfold String.app. cbn. by intros [= ->].
  - rewrite join_colour_cons. unfold String.app. by destruct c'.
  - rewrite join_colour_cons. unfold String.app. by destruct c.
  - rewrite !join_colour_cons. intros Heq.
    assert (c = c' ∧
            join "" (Colour_str <$> l) +:+ " " +:+ n
              = join "" (Colour_str <$> l') +:+ " " +:+ n') as [-> Hrest].
    { unfold String.app in *.
      destruct c, c'; cbn [Colour_str String.append] in Heq;
        try discriminate Heq; by injection Heq. }
    by destruct (IH l' Hrest) as [-> ->].
Qed.
End display_labels.


(** X4: [synergistic_types] only returns pairs of the index it is given, and
    over the union of two indexes it returns the union of what it returns
    over each; over the empty index it returns nothing. *)
Theorem synergistic_types_union (a b : Pack) (S1 S2 : gset (gset CreatureType)) :
  synergistic_types a b S1 ⊆ S1 ∧
  synergistic_types a b (S1 ∪ S2)
    = synergistic_types a b S1 ∪ synergistic_types a b S2 ∧
  synergistic_types a b ∅ = ∅.
Proof.
  split; [|split].
  - intros pair. rewrite elem_of_synergistic_types. tauto.
  - apply set_eq. intros pair.
    rewrite elem_of_union, !elem_of_synergistic_types, elem_of_union. tauto.
  - apply set_eq. intros pair.
    rewrite elem_of_synergistic_types. split; [|by intros ?%not_elem_of_empty].
    by intros [?%not_elem_of_empty _].
Qed.

(** The eight cases of [pair_playability], with the three tests turned into
    the propositions of the decision table. *)
Ltac playability_cases a b S :=
  unfold pair_playability;
  let Hc := fresh "Hc" in
  let Ht := fresh "Ht" in
  let Hs := fresh "Hs" in
  let Hm := fresh "Hm" in
  destruct (truthy (matching_colours a b)) eqn:Hc;
    [apply truthy_true in Hc | apply truthy_false in Hc];
  (destruct (truthy (matching_types a b)) eqn:Ht;
    [apply truthy_true in Ht | apply truthy_false in Ht]);
  (destruct (truthy (synergistic_types a b S)) eqn:Hs;
    [apply truthy_true in Hs | apply truthy_false in Hs]);
  (destruct (Nat.max (size (colours a)) (size (colours b)) =? 1) eqn:Hm;
    [apply Nat.eqb_eq in Hm | apply Nat.eqb_neq in Hm]);
  cbn [orb].

(** X5: the verdict is Strong exactly for two packs that share a colour and
    are linked by a common creature type or a synergistic pair. *)
Theorem pair_playability_strong (a b : Pack) (S : gset (gset CreatureType)) :
  pair_playability a b S = STRONG ↔ shares_colour a b ∧ linked a b S.
Proof.
  unfold linked. rewrite <- matching_colours_shares.
  playability_cases a b S; split; try done; try tauto;
    intros [? [?|?]]; done.
Qed.

(** X6: the verdict is Unplayable exactly for two packs that share no
    colour, have no common creature type and no synergistic pair between
    them, and are not both single-coloured. *)
Theorem pair_playability_unplayable (a b : Pack) (S : gset (gset CreatureType)) :
  pair_playability a b S = UNPLAYABLE ↔
    ¬ shares_colour a b ∧ ¬ linked a b S ∧ ¬ single_coloured a b.
Proof.
  unfold linked, single_coloured. rewrite <- matching_colours_shares.
  playability_cases a b S; split; try done; try tauto.
Qed.

(** X7: a larger synergy index never lowers a verdict. *)
Theorem pair_playability_mono (a b : Pack) (S S' : gset (gset CreatureType)) :
  S ⊆ S' →
  Playability_rank (pair_playability a b S)
    ≤ Playability_rank (pair_playability a b S').
Proof.
  intros Hsub.
  assert (Hmono : synergistic_types a b S ≠ ∅ → synergistic_types a b S' ≠ ∅).
  { intros [pair Hp]%set_choose_L Hemp.
    apply elem_of_synergistic_types in Hp as (HS & Hb & Ha).
    apply (not_elem_of_empty (C:=gset (gset CreatureType)) pair).
    rewrite <- Hemp. apply elem_of_synergistic_types. auto. }
  unfold pair_playability.
  destruct (truthy (matching_colours a b)),
    (truthy (matching_types a b)),
    (Nat.max (size (colours a)) (size (colours b)) =? 1);
  (destruct (truthy (synergistic_types a b S)) eqn:Hs;
    [apply truthy_true in Hs | apply truthy_false in Hs]);
  (destruct (truthy (synergistic_types a b S')) eqn:Hs';
    [apply truthy_true in Hs' | apply truthy_false in Hs']);
  cbn; try lia; by apply Hmono in Hs.
Qed.

Lemma pair_playability_mono_witness :
  Playability_rank (pair_playability pack_a pack_d ∅)
    ≤ Playability_rank (pair_playability pack_a pack_d {[ {[BIRD; FROG]} ]}).
Proof.
  apply (pair_playability_mono pack_a pack_d ∅ {[ {[BIRD; FROG]} ]}).
  apply empty_subseteq.
Defined.

(** X8: two packs with the same colours and the same creature types, at
    least one of each, are Strong together, whatever the synergy index and
    whatever their names. *)
Theorem pair_playability_alike (a b : Pack) (S : gset (gset CreatureType)) :
  colours a = colours b →
  creature_types a = creature_types b →
  colours a ≠ ∅ →
  creature_types a ≠ ∅ →
  pair_playability a b S = STRONG.
Proof.
  intros Hcol Hty Hc Ht.
  assert (matching_colours a b = colours a) as Hmc.
  { apply set_eq. intros c. rewrite elem_of_matching_colours, <- Hcol. tauto. }
  assert (matching_types a b = creature_types a) as Hmt.
  { apply set_eq. intros t. rewrite elem_of_matching_types, <- Hty. tauto. }
  unfold pair_playability.
  rewrite Hmc, Hmt, (proj2 (truthy_true _) Hc), (proj2 (truthy_true _) Ht).
  reflexivity.
Qed.

Lemma pair_playability_alike_witness :
  pair_playability pack_w (mkPack "Brave-Kin" {[WHITE]} {[BIRD]}) ∅ = STRONG.
Proof.
  apply pair_playability_alike.
  - reflexivity.
  - reflexivity.
  - apply (bool_decide_unpack _). vm_compute. exact I.
  - apply (bool_decide_unpack _). vm_compute. exact I.
Defined.

(** X23: the verdict is Medium exactly for two single-coloured packs that
    either share their colour or are linked, not both; it is Weak exactly
    in the three remaining cases of the table. *)
Theorem pair_playability_middle (a b : Pack) (S : gset (gset CreatureType)) :
  (pair_playability a b S = MEDIUM ↔
     single_coloured a b ∧
     ((shares_colour a b ∧ ¬ linked a b S) ∨ (¬ shares_colour a b ∧ linked a b S))) ∧
  (pair_playability a b S = WEAK ↔
     (shares_colour a b ∧ ¬ linked a b S ∧ ¬ single_coloured a b) ∨
     (¬ shares_colour a b ∧ linked a b S ∧ ¬ single_coloured a b) ∨
     (¬ shares_colour a b ∧ ¬ linked a b S ∧ single_coloured a b)).
Proof.
  unfold linked, single_coloured. rewrite <- matching_colours_shares.
  playability_cases a b S; split; split; try done; try tauto.
Qed.

(** * Further properties of the index builders *)

Section builders.
Implicit Types g : Globals.
Implicit Types packs : list Pack.

Lemma Globals_eq g g' :
  (∀ v, matches v g = matches v g') →
  SYNERGISTIC_TYPE_PAIRS g = SYNERGISTIC_TYPE_PAIRS g' →
  g = g'.
Proof.
  destruct g, g'. intros Hm Hs.
  pose proof (Hm STRONG). pose proof (Hm MEDIUM).
  pose proof (Hm WEAK). pose proof (Hm UNPLAYABLE).
  cbn in *. congruence.
Qed.

Lemma elem_of_register_synergy_one q g pair :
  pair ∈ SYNERGISTIC_TYPE_PAIRS (register_synergy q g)
  ↔ pair ∈ SYNERGISTIC_TYPE_PAIRS g ∨
    (size (creature_types q) = 2 ∧ size (colours q) = 1
     ∧ pair = creature_types q).
Proof.
  unfold register_synergy.
  destruct (size (creature_types q) =? 2) eqn:Ht;
    [apply Nat.eqb_eq in Ht | apply Nat.eqb_neq in Ht];
  (destruct (size (colours q) =? 1) eqn:Hc;
    [apply Nat.eqb_eq in Hc | apply Nat.eqb_neq in Hc]);
  cbn [andb add_synergistic SYNERGISTIC_TYPE_PAIRS];
  rewrite ?elem_of_union, ?elem_of_singleton; tauto.
Qed.

(** What the first loop of [initialize] and [write_to_file] leaves in the
    synergy index. *)
Lemma elem_of_register_synergy packs g pair :
  pair ∈ SYNERGISTIC_TYPE_PAIRS (foldl (λ g pack, register_synergy pack g) g packs)
  ↔ pair ∈ SYNERGISTIC_TYPE_PAIRS g ∨
    ∃ p, p ∈ packs ∧ size (creature_types p) = 2 ∧ size (colours p) = 1
         ∧ pair = creature_types p.
Proof.
  revert g. induction packs as [|q packs IH]; intros g.
  - cbn [foldl]. split; [by left|].
    intros [?|(p & ?%elem_of_nil & _)]; done.
  - cbn [foldl]. rewrite IH, elem_of_register_synergy_one. split.
    + intros [[Hg|(Ht & Hc & ->)]|(p & Hp & Hrest)].
      * by left.
      * right. exists q. split; [left | done].
      * right. exists p. split; [by right | done].
    + intros [Hg|(p & [->|Hp]%elem_of_cons & Ht & Hc & ->)].
      * by left; left.
      * by left; right.
      * right. by exists p.
Qed.

End builders.

(** X9: [initialize] returns, and the synergy index then holds what it held
    before and the creature types of every pack that has exactly two
    creature types and exactly one colour, and nothing else. *)
Theorem initialize_synergy_index (packs : list Pack) (g : Globals) :
  ∃ g', initialize packs g = Ok g' ∧
    ∀ pair, pair ∈ SYNERGISTIC_TYPE_PAIRS g' ↔
      pair ∈ SYNERGISTIC_TYPE_PAIRS g ∨
      ∃ p, p ∈ packs ∧ size (creature_types p) = 2 ∧ size (colours p) = 1
           ∧ pair = creature_types p.
Proof.
  exists (built_index packs g). split; [apply initialize_eq|].
  intros pair. unfold built_index.
  rewrite SYNERGISTIC_index_pairs. apply elem_of_register_synergy.
Qed.

(** X10: when the collection has a pack of one colour and two creature
    types, [initialize] returns and those two types then bridge any two
    packs that each have one of them: [synergistic_types] returns that pair
    for them. *)
Theorem initialize_bridges (packs : list Pack) (g : Globals) (x y z : Pack) :
  x ∈ packs →
  size (creature_types x) = 2 →
  size (colours x) = 1 →
  (∃ t, t ∈ creature_types x ∧ t ∈ creature_types y) →
  (∃ t, t ∈ creature_types x ∧ t ∈ creature_types z) →
  ∃ g', initialize packs g = Ok g' ∧
    creature_types x ∈ synergistic_types y z (SYNERGISTIC_TYPE_PAIRS g').
Proof.
  intros Hx Ht Hc [t [Htx Hty]] [u [Hux Huz]].
  exists (built_index packs g). split; [apply initialize_eq|].
  unfold built_index.
  rewrite SYNERGISTIC_index_pairs. apply elem_of_synergistic_types.
  split; [|split].
  - apply elem_of_register_synergy. right. by exists x.
  - by exists u.
  - by exists t.
Qed.

Lemma initialize_bridges_witness :
  ∃ g', initialize six_packs module_globals = Ok g' ∧
    creature_types pack_u
      ∈ synergistic_types pack_birds pack_frogs (SYNERGISTIC_TYPE_PAIRS g').
Proof.
  apply (initialize_bridges six_packs module_globals pack_u pack_birds pack_frogs).
  - apply (bool_decide_unpack _). vm_compute. exact I.
  - vm_compute. reflexivity.
  - vm_compute. reflexivity.
  - exists BIRD. split; apply (bool_decide_unpack _); vm_compute; exact I.
  - exists FROG. split; apply (bool_decide_unpack _); vm_compute; exact I.
Defined.

(** X12: [initialize] returns and only adds: what the four match sets and
    the synergy index held before the run, they hold after it. *)
Theorem initialize_accumulates (packs : list Pack) (g : Globals) :
  ∃ g', initialize packs g = Ok g' ∧
    (∀ v, matches v g ⊆ matches v g') ∧
    SYNERGISTIC_TYPE_PAIRS g ⊆ SYNERGISTIC_TYPE_PAIRS g'.
Proof.
  exists (built_index packs g). split; [apply initialize_eq|].
  unfold built_index. split.
  - intros v pair Hin.
    rewrite matches_index_pairs, matches_register_synergy.
    apply elem_of_union. by right.
  - intros pair Hin. rewrite SYNERGISTIC_index_pairs.
    apply elem_of_register_synergy. by left.
Qed.

Section built.
Implicit Types packs : list Pack.
Implicit Types g : Globals.

(** Building the index twice over the same packs changes nothing. *)
Lemma built_index_idempotent packs g :
  built_index packs (built_index packs g) = built_index packs g.
Proof.
  set (g1 := foldl (λ g pack, register_synergy pack g) g packs).
  set (g2 := foldl (λ g pack, register_synergy pack g) (built_index packs g) packs).
  assert (Hg' : built_index packs g
                = index_pairs (SYNERGISTIC_TYPE_PAIRS g1) (unordered_pairs packs) g1)
    by reflexivity.
  assert (Hsyn' : SYNERGISTIC_TYPE_PAIRS (built_index packs g)
                  = SYNERGISTIC_TYPE_PAIRS g1)
    by (by rewrite Hg', SYNERGISTIC_index_pairs).
  assert (Hsyn : SYNERGISTIC_TYPE_PAIRS g2 = SYNERGISTIC_TYPE_PAIRS g1).
  { apply set_eq. intros pair. subst g2.
    rewrite elem_of_register_synergy, Hsyn'. subst g1.
    rewrite elem_of_register_synergy. tauto. }
  change (built_index packs (built_index packs g))
    with (index_pairs (SYNERGISTIC_TYPE_PAIRS g2) (unordered_pairs packs) g2).
  apply Globals_eq.
  - intros v. rewrite matches_index_pairs. subst g2.
    rewrite matches_register_synergy, Hsyn.
    rewrite Hg', matches_index_pairs.
    by rewrite (assoc_L (∪)), (idemp_L (∪)).
  - by rewrite SYNERGISTIC_index_pairs, Hsyn.
Qed.

Lemma label_of_name (p q : Pack) : label_of p = label_of q → name p = name q.
Proof.
  intros Heq.
  assert (Pack_str p = Pack_str q) as Hstr by (by rewrite !Pack_str_total, Heq).
  unfold Pack_str in Hstr. injection Hstr as Hstr.
  by apply label_inj in Hstr as [_ ?].
Qed.

(** Packs with different names have different labels. *)
Lemma NoDup_label_of packs :
  NoDup (name <$> packs) → NoDup (label_of <$> packs).
Proof.
  induction packs as [|p packs IH]; [constructor|].
  cbn [fmap list_fmap]. intros [Hp Hnd]%NoDup_cons.
  apply NoDup_cons. split; [|by apply IH].
  intros (q & Hq & Hin)%list_elem_of_fmap. apply Hp.
  apply list_elem_of_fmap. exists q. split; [by apply label_of_name | done].
Qed.

(** The number of entries of an index built from the empty sets over packs
    with pairwise different labels. *)
Lemma built_index_size packs :
  NoDup (label_of <$> packs) →
  index_size (built_index packs module_globals)
  = length packs * (length packs - 1) / 2.
Proof.
  intros Hnd. unfold built_index.
  set (g1 := foldl (λ g pack, register_synergy pack g) module_globals packs).
  set (S0 := SYNERGISTIC_TYPE_PAIRS g1).
  set (pairs := unordered_pairs packs).
  set (keyp := λ pr : Pack * Pack, pair_key (label_of pr.1, label_of pr.2)).
  set (verdict := λ pr : Pack * Pack, pair_playability pr.1 pr.2 S0).
  assert (Hkeys : NoDup (keyp <$> pairs)).
  { apply NoDup_pair_keys in Hnd. rewrite unordered_pairs_fmap in Hnd.
    by rewrite <- list_fmap_compose in Hnd. }
  assert (Hm : ∀ v, matches v (index_pairs S0 pairs g1)
                 = list_to_set (keyp <$> filter (λ pr, verdict pr = v) pairs)).
  { intros v. rewrite matches_index_pairs. subst g1.
    rewrite matches_register_synergy.
    replace (matches v module_globals) with (∅ : gset (gset string))
      by by destruct v.
    by rewrite (right_id_L ∅ (∪)). }
  unfold index_size.
  change (STRONG_MATCHES ?g) with (matches STRONG g).
  change (MEDIUM_MATCHES ?g) with (matches MEDIUM g).
  change (WEAK_MATCHES ?g) with (matches WEAK g).
  change (UNPLAYABLE_MATCHES ?g) with (matches UNPLAYABLE g).
  rewrite !Hm, !size_list_to_set by by apply NoDup_fmap_filter.
  rewrite !length_fmap, (filter_verdict_lengths verdict pairs).
  pose proof (length_unordered_pairs packs) as Hlen. fold pairs in Hlen.
  rewrite <- Hlen, Nat.mul_comm. symmetry. apply Nat.div_mul. lia.
Qed.
End built.

(** X11: over packs with pairwise different names, [initialize] from the
    empty match sets returns an index of exactly [n (n - 1) / 2] entries:
    different names give different labels, so no two pairs share a key. *)
Theorem initialize_unique_names (packs : list Pack) :
  NoDup (name <$> packs) →
  ∃ g, initialize packs module_globals = Ok g ∧
       index_size g = length packs * (length packs - 1) / 2.
Proof.
  intros Hnd. exists (built_index packs module_globals).
  split; [apply initialize_eq|].
  by apply built_index_size, NoDup_label_of.
Qed.

Lemma initialize_unique_names_witness :
  ∃ g, initialize six_packs module_globals = Ok g ∧
       index_size g = length six_packs * (length six_packs - 1) / 2.
Proof.
  apply (initialize_unique_names six_packs).
  apply (bool_decide_unpack _). vm_compute. exact I.
Defined.

(** X13: [initialize] is idempotent: run again over the same packs on the
    state that a first run left, it returns that state as it is. *)
Theorem initialize_idempotent (packs : list Pack) (g : Globals) :
  ∃ g', initialize packs g = Ok g' ∧ initialize packs g' = Ok g'.
Proof.
  exists (built_index packs g). split; [apply initialize_eq|].
  by rewrite initialize_eq, built_index_idempotent.
Qed.

(** * Properties of the report *)

Section report.
Implicit Types g : Globals.
Implicit Types packs : list Pack.

Lemma for_each_initialize_pair_eq (pairs : list (Pack * Pack)) g :
  for_each (λ pr, initialize_pair pr.1 pr.2) pairs g
  = Ok (index_pairs (SYNERGISTIC_TYPE_PAIRS g) pairs g).
Proof. apply for_each_initialize_pair, Forall_label_pair. Qed.

Lemma write_header_eq p (acc : list string * Globals) :
  write_header p acc = Ok (acc.1 ++ [label_of p], register_synergy p acc.2).
Proof. unfold write_header. by rewrite Pack_str_total. Qed.

(** The header loop: one label per pack, and the synergy pairs. *)
Lemma for_each_write_header packs names g :
  for_each write_header packs (names, g)
  = Ok (names ++ (label_of <$> packs),
        foldl (λ g pack, register_synergy pack g) g packs).
Proof.
  revert names g. induction packs as [|p packs IH]; intros names g.
  - cbn [for_each fmap list_fmap foldl]. by rewrite app_nil_r.
  - cbn [for_each]. rewrite write_header_eq. cbn [mbind Result_bind fst snd].
    rewrite IH. cbn [fmap list_fmap foldl]. by rewrite <- app_assoc.
Qed.

(** The cells of a row are the verdicts that [initialize] records for the
    same pairs. *)
Lemma for_each_write_cell p1 (rest : list Pack) row g :
  for_each (write_cell p1) rest (row, g)
  = Ok (row ++ ((λ q, Playability_value
                        (pair_playability p1 q (SYNERGISTIC_TYPE_PAIRS g))) <$> rest),
        index_pairs (SYNERGISTIC_TYPE_PAIRS g) ((λ q, (p1, q)) <$> rest) g).
Proof.
  revert row g. induction rest as [|q rest IH]; intros row g.
  - cbn. by rewrite app_nil_r.
  - cbn [for_each].
    replace (write_cell p1 q (row, g))
      with (g1 ← initialize_pair p1 q g;
            mret (row ++ [Playability_value
                            (pair_playability p1 q (SYNERGISTIC_TYPE_PAIRS g))],
                  g1))
      by reflexivity.
    rewrite (initialize_pair_ok _ _ _ _ (label_pair_total p1 q)).
    cbn [mbind Result_bind mret Result_ret]. rewrite IH.
    rewrite SYNERGISTIC_add_match. by rewrite <- app_assoc.
Qed.

(** The row loop of [write_to_file]. *)
Lemma write_rows_pairs before after rows g :
  write_rows (before ++ after)
    (zip (seq (S (length before)) (length after)) after) (rows, g)
  = Ok (rows ++ matrix_rows (SYNERGISTIC_TYPE_PAIRS g) (S (length before)) after,
        index_pairs (SYNERGISTIC_TYPE_PAIRS g) (unordered_pairs after) g).
Proof.
  revert before rows g.
  induction after as [|x after IH]; intros before rows g.
  - cbn. by rewrite app_nil_r.
  - cbn [length seq zip zip_with write_rows unordered_pairs matrix_rows fst snd].
    replace (length (before ++ x :: after) <? S (length before))
      with false by (symmetry; apply Nat.ltb_ge; rewrite length_app; simpl; lia).
    replace (drop (S (length before)) (before ++ x :: after)) with after
      by (change (x :: after) with ([x] ++ after); rewrite app_assoc;
          rewrite drop_app_length'; [done | rewrite length_app; simpl; lia]).
    rewrite Pack_str_total. cbn [mbind Result_bind]. rewrite for_each_write_cell.
    cbn [mbind Result_bind mret Result_ret].
    specialize (IH (before ++ [x]) (rows ++ [([label_of x]
      ++ replicate (S (length before)) "")
      ++ ((λ q, Playability_value
                  (pair_playability x q (SYNERGISTIC_TYPE_PAIRS g))) <$> after)])
      (index_pairs (SYNERGISTIC_TYPE_PAIRS g) ((λ q, (x, q)) <$> after) g)).
    replace ((before ++ [x]) ++ after) with (before ++ x :: after) in IH
      by (by rewrite <- app_assoc).
    replace (length (before ++ [x])) with (S (length before)) in IH
      by (rewrite length_app; simpl; lia).
    rewrite IH, SYNERGISTIC_index_pairs. f_equal. f_equal.
    + by rewrite <- !app_assoc.
    + unfold index_pairs. by rewrite foldl_app.
Qed.

(** What [write_to_file] returns. *)
Lemma write_to_file_eq packs g :
  write_to_file packs g
  = Ok (mkMatrix ("" :: (label_of <$> packs))
          (matrix_rows (SYNERGISTIC_TYPE_PAIRS (built_index packs g)) 1 packs),
        built_index packs g).
Proof.
  unfold write_to_file. rewrite for_each_write_header.
  cbn [mbind Result_bind]. unfold enumerate.
  rewrite (write_rows_pairs [] packs []).
  cbn [mbind Result_bind mret Result_ret app length]. unfold built_index.
  by rewrite SYNERGISTIC_index_pairs.
Qed.

Lemma matrix_rows_lookup syn number packs i p :
  packs !! i = Some p →
  matrix_rows syn number packs !! i
  = Some ([label_of p] ++ replicate (number + i) ""
          ++ ((λ q, Playability_value (pair_playability p q syn))
                <$> drop (S i) packs)).
Proof.
  revert number i. induction packs as [|x packs IH]; intros number i; [done|].
  destruct i as [|i].
  - intros [= ->]. cbn [matrix_rows]. by rewrite Nat.add_0_r.
  - intros Hi.
    change (matrix_rows syn number (x :: packs) !! S i)
      with (matrix_rows syn (S number) packs !! i).
    rewrite (IH (S number) i Hi). cbn [drop].
    by replace (S number + i) with (number + S i) by lia.
Qed.

Lemma length_matrix_rows syn number packs :
  length (matrix_rows syn number packs) = length packs.
Proof.
  revert number. induction packs as [|x packs IH]; intros number; [done|].
  cbn [matrix_rows length]. by rewrite IH.
Qed.
End report.

(** X14: [write_to_file] returns and leaves the match sets and the synergy
    index exactly as [initialize] leaves them over the same packs from the
    same state. *)
Theorem write_to_file_initialize (packs : list Pack) (g : Globals) :
  ∃ m g', write_to_file packs g = Ok (m, g') ∧ initialize packs g = Ok g'.
Proof.
  eexists _, _. split; [apply write_to_file_eq | apply initialize_eq].
Qed.

(** X15: [write_to_file] returns a matrix that is square with a header: a
    blank and the labels of the packs on top; one row per pack, as long as
    the header, that starts with the label of its pack, is blank up to and
    on the diagonal, and holds the verdict of the row's pack with the
    column's pack after it. *)
Theorem write_to_file_matrix (packs : list Pack) (g : Globals) :
  ∃ m g' labels,
    write_to_file packs g = Ok (m, g') ∧
    Forall2 (λ p label, Pack_str p = Ok label) packs labels ∧
    playability_matrix_fieldnames m = "" :: labels ∧
    length (playability_matrix_rows m) = length packs ∧
    ∀ i p row,
      packs !! i = Some p →
      playability_matrix_rows m !! i = Some row →
      length row = S (length packs) ∧
      row !! 0 = labels !! i ∧
      (∀ j, j ≤ i → row !! S j = Some "") ∧
      (∀ j q, i < j → packs !! j = Some q →
         row !! S j
         = Some (Playability_value
                   (pair_playability p q (SYNERGISTIC_TYPE_PAIRS g')))).
Proof.
  eexists _, _, (label_of <$> packs). split; [apply write_to_file_eq|].
  cbn [playability_matrix_fieldnames playability_matrix_rows].
  split; [|split; [done|split]].
  - apply Forall2_fmap_r, Forall_Forall2_diag, Forall_Pack_str.
  - by rewrite length_matrix_rows.
  - intros i p row Hi. rewrite (matrix_rows_lookup _ _ _ _ _ Hi).
    intros [= <-]. pose proof (lookup_lt_Some _ _ _ Hi) as Hlt.
    split; [|split; [|split]].
    + cbn [app length].
      rewrite length_app, length_replicate, length_fmap, length_drop. lia.
    + by rewrite list_lookup_fmap, Hi.
    + intros j Hj. change ((?x :: ?l) !! S j) with (l !! j).
      destruct j as [|j]; [reflexivity|].
      change ((?x :: ?l) !! S j) with (l !! j).
      rewrite lookup_app_l by (rewrite length_replicate; lia).
      apply lookup_replicate_2. lia.
    + intros j q Hj Hq. change ((?x :: ?l) !! S j) with (l !! j).
      destruct j as [|j]; [lia|].
      change ((?x :: ?l) !! S j) with (l !! j).
      rewrite lookup_app_r by (rewrite length_replicate; lia).
      rewrite length_replicate, list_lookup_fmap, lookup_drop.
      replace (S i + (j - i)) with (S j) by lia. by rewrite Hq.
Qed.

(** X16: a report after the index was built changes nothing:
    [write_to_file] over the packs that [initialize] has just worked
    through returns the state that [initialize] left. *)
Theorem write_to_file_after_initialize (packs : list Pack) (g : Globals) :
  ∃ g' m, initialize packs g = Ok g' ∧ write_to_file packs g' = Ok (m, g').
Proof.
  exists (built_index packs g). eexists. split; [apply initialize_eq|].
  by rewrite write_to_file_eq, built_index_idempotent.
Qed.

(** The report over the three sample packs. *)
Example write_to_file_three :
  ∃ g', write_to_file three_packs module_globals = Ok (matrix_three, g').
Proof. eexists. rewrite write_to_file_eq. f_equal. Qed.

(** * Further properties of the evaluator *)

Section counting_pairs.
Implicit Types g : Globals.
Implicit Types dr : DraftResult.

(** One pair moves at most one counter, by one. *)
Lemma count_pair_step g p1 p2 dr dr' :
  count_pair g p1 p2 dr = Ok dr' →
  counters_nonneg dr →
  counters_nonneg dr' ∧
  (pairs_counted dr ≤ pairs_counted dr' ≤ pairs_counted dr + 1)%Z.
Proof.
  unfold count_pair, counters_nonneg, pairs_counted.
  destruct (label_pair p1 p2) as [pair|e]; [|done].
  cbn [mbind Result_bind mret Result_ret].
  repeat case_decide; intros [= <-] Hnn;
    cbn [strong medium weak unplayable]; lia.
Qed.

(** A pair of the index moves exactly one counter. *)
Lemma count_pair_indexed g p1 p2 dr :
  indexed g (p1, p2) →
  ∃ dr', count_pair g p1 p2 dr = Ok dr' ∧
         pairs_counted dr' = (pairs_counted dr + 1)%Z.
Proof.
  intros (pair & v & Hl & Hin). cbn [fst snd] in Hl.
  unfold count_pair, pairs_counted. rewrite Hl.
  cbn [mbind Result_bind mret Result_ret].
  repeat case_decide;
    try (eexists; split; [reflexivity|];
         cbn [strong medium weak unplayable]; lia).
  by destruct v.
Qed.

Lemma for_each_count_pair_bound g (pairs : list (Pack * Pack)) dr dr' :
  for_each (λ pr, count_pair g pr.1 pr.2) pairs dr = Ok dr' →
  counters_nonneg dr →
  counters_nonneg dr' ∧
  (pairs_counted dr ≤ pairs_counted dr'
   ≤ pairs_counted dr + Z.of_nat (length pairs))%Z.
Proof.
  revert dr. induction pairs as [|pr pairs IH]; intros dr.
  - cbn [for_each length]. intros [= <-] Hnn. split; [done | lia].
  - cbn [for_each length].
    destruct (count_pair g pr.1 pr.2 dr) as [dr1|e] eqn:Hpr; [|done].
    cbn [mbind Result_bind]. intros Hrest Hnn.
    destruct (count_pair_step _ _ _ _ _ Hpr Hnn) as [Hnn1 Hstep].
    destruct (IH _ Hrest Hnn1) as [Hnn' Hbound]. split; [done | lia].
Qed.

Lemma for_each_count_pair_indexed g (pairs : list (Pack * Pack)) dr :
  Forall (indexed g) pairs →
  ∃ dr', for_each (λ pr, count_pair g pr.1 pr.2) pairs dr = Ok dr' ∧
         pairs_counted dr' = (pairs_counted dr + Z.of_nat (length pairs))%Z.
Proof.
  revert dr. induction pairs as [|[p1 p2] pairs IH]; intros dr Hall.
  - exists dr. split; [done|]. cbn [length]. lia.
  - apply Forall_cons in Hall as [Hpr Hall]. cbn [for_each fst snd].
    destruct (count_pair_indexed g p1 p2 dr Hpr) as (dr1 & -> & Hone).
    cbn [mbind Result_bind].
    destruct (IH dr1 Hall) as (dr' & Hrun & Hcount).
    exists dr'. split; [done|]. cbn [length]. lia.
Qed.
(** The chain on one pair always returns. *)
Lemma count_pair_total g p1 p2 dr :
  ∃ dr', count_pair g p1 p2 dr = Ok dr'.
Proof.
  unfold count_pair. rewrite label_pair_total.
  cbn [mbind Result_bind mret Result_ret]. repeat case_decide; eauto.
Qed.

Lemma for_each_count_pair_total g (pairs : list (Pack * Pack)) dr :
  ∃ dr', for_each (λ pr, count_pair g pr.1 pr.2) pairs dr = Ok dr'.
Proof.
  revert dr. induction pairs as [|pr pairs IH]; intros dr; [by eexists|].
  cbn [for_each]. destruct (count_pair_total g pr.1 pr.2 dr) as [dr1 ->].
  cbn [mbind Result_bind]. apply IH.
Qed.
End counting_pairs.

(** X17: whenever [draft] returns a selection, [get_draft_result] returns;
    no counter of its result is negative, and together the four counters
    count at most the pairs of the selection. *)
Theorem get_draft_result_bounds (self : DraftStrategy) (g : Globals)
    (packs : list Pack) (rng rng' : Rng) (sel : Selection) :
  draft self packs rng = Ok (sel, rng') →
  ∃ dr, get_draft_result self g packs rng = Ok (dr, rng') ∧
    (0 ≤ strong dr)%Z ∧ (0 ≤ medium dr)%Z ∧
    (0 ≤ weak dr)%Z ∧ (0 ≤ unplayable dr)%Z ∧
    (strong dr + medium dr + weak dr + unplayable dr
     ≤ Z.of_nat (length (selection_pairs sel)))%Z.
Proof.
  intros Hd. unfold get_draft_result. rewrite Hd.
  cbn [mbind Result_bind]. rewrite count_selection_pairs.
  destruct (for_each_count_pair_total g (selection_pairs sel) DraftResult_new)
    as [dr Hrun].
  rewrite Hrun. cbn [mbind Result_bind mret Result_ret].
  exists dr. split; [done|].
  apply for_each_count_pair_bound in Hrun as [Hnn Hbound].
  - unfold counters_nonneg, pairs_counted in *.
    cbn [DraftResult_new strong medium weak unplayable] in Hbound. lia.
  - unfold counters_nonneg. cbn. lia.
Qed.

Lemma get_draft_result_bounds_witness :
  ∃ dr, get_draft_result DrawThreeStrategy globals_three three_packs rng_zero
          = Ok (dr, mkRng (λ _, 0) 3) ∧
    (0 ≤ strong dr)%Z ∧ (0 ≤ medium dr)%Z ∧
    (0 ≤ weak dr)%Z ∧ (0 ≤ unplayable dr)%Z ∧
    (strong dr + medium dr + weak dr + unplayable dr
     ≤ Z.of_nat (length (selection_pairs (SelList three_packs))))%Z.
Proof.
  apply (get_draft_result_bounds DrawThreeStrategy globals_three
           three_packs rng_zero (mkRng (λ _, 0) 3) (SelList three_packs)).
  vm_compute. reflexivity.
Defined.

(** X18: [test] goes on from the results it is given: a run of [m + n]
    trials is a run of [m] trials followed by a run of [n] trials on the
    results and the randomness that the first run left. *)
Theorem test_trials_add (m n : nat) (self : DraftStrategy) (g : Globals)
    (packs : list Pack) (results : TotalResults) (rng : Rng) :
  test_trials (m + n) self g packs results rng
  = ('(results', rng') ← test_trials m self g packs results rng;
     test_trials n self g packs results' rng').
Proof.
  revert results rng. induction m as [|m IH]; intros results rng; [reflexivity|].
  cbn [Nat.add test_trials].
  destruct (get_draft_result self g packs rng) as [[dr rng1]|e]; [|reflexivity].
  cbn [mbind Result_bind]. apply IH.
Qed.

(** * Properties of the draft strategies *)

Section drafting.
Implicit Types packs : list Pack.
Implicit Types g : Globals.

Lemma sample_raises {A : Type} (population : list A) k rng :
  length population < k → sample population k rng = Raise ValueError.
Proof.
  intros Hlt. unfold sample.
  by replace (length population <? k) with true
    by (symmetry; by apply Nat.ltb_lt).
Qed.

Lemma choice_returns {A : Type} (seq : list A) rng :
  seq ≠ [] → ∃ x rng', choice seq rng = Ok (x, rng').
Proof.
  destruct seq as [|y seq]; [done|]. intros _. unfold choice.
  cbn [randbelow].
  set (j := tape rng (cursor rng) mod length (y :: seq)).
  assert (Hj : j < length (y :: seq))
    by (apply Nat.mod_upper_bound; simpl; lia).
  destruct (lookup_lt_is_Some_2 _ _ Hj) as [x ->]. eauto.
Qed.

Lemma unordered_pairs_NoDup {A : Type} (l : list A) a b :
  NoDup l → (a, b) ∈ unordered_pairs l → a ≠ b ∧ a ∈ l ∧ b ∈ l.
Proof.
  intros Hnd Hab. split; [|by apply elem_of_unordered_pairs_members].
  apply elem_of_unordered_pairs in Hab as (i & j & Hij & Hi & Hj).
  intros ->. pose proof (NoDup_lookup _ _ _ _ Hnd Hi Hj). lia.
Qed.

(** Every two different packs of the collection are in the index that
    [initialize] builds over it. *)
Lemma initialize_covers packs g0 a b :
  a ∈ packs → b ∈ packs → a ≠ b →
  indexed (built_index packs g0) (a, b).
Proof.
  intros [i Hi]%list_elem_of_lookup [j Hj]%list_elem_of_lookup Hne.
  unfold built_index.
  set (g1 := foldl (λ g pack, register_synergy pack g) g0 packs).
  set (S1 := SYNERGISTIC_TYPE_PAIRS g1).
  assert (Hin : ∀ x y, (x, y) ∈ unordered_pairs packs →
            pair_key (label_of x, label_of y)
              ∈ matches (pair_playability x y S1)
                  (index_pairs S1 (unordered_pairs packs) g1)).
  { intros x y Hxy. rewrite matches_index_pairs. apply elem_of_union. left.
    apply elem_of_list_to_set, list_elem_of_fmap. exists (x, y).
    split; [done|]. by apply list_elem_of_filter. }
  destruct (decide (i < j)) as [Hlt|Hge].
  - assert ((a, b) ∈ unordered_pairs packs) as Hab
      by (apply elem_of_unordered_pairs; eauto).
    eexists _, _. split; [apply label_pair_total | by apply Hin].
  - assert (i ≠ j) by (intros ->; congruence).
    assert ((b, a) ∈ unordered_pairs packs) as Hba
      by (apply elem_of_unordered_pairs; exists j, i; split; [lia | done]).
    eexists _, _. split; [apply label_pair_total|].
    cbn [fst snd]. rewrite pair_key_comm. by apply Hin.
Qed.

Lemma filter_none {A : Type} (P : A → Prop) `{∀ x, Decision (P x)} (l : list A) :
  (∀ x, x ∈ l → ¬ P x) → filter P l = [].
Proof.
  induction l as [|x l IH]; intros Hall; [done|].
  rewrite filter_cons_False by (apply Hall; left).
  apply IH. intros y Hy. apply Hall. by right.
Qed.

Lemma filter_all {A : Type} (P : A → Prop) `{∀ x, Decision (P x)} (l : list A) :
  (∀ x, x ∈ l → P x) → filter P l = l.
Proof.
  induction l as [|x l IH]; intros Hall; [done|].
  rewrite filter_cons_True by (apply Hall; left).
  f_equal. apply IH. intros y Hy. apply Hall. by right.
Qed.

(** The packs that are left after the first three of a collection without
    repeats. *)
Lemma length_filter_rest packs (first_three rest : list Pack) :
  NoDup packs → packs ≡ₚ first_three ++ rest →
  length (filter (λ pack, pack ∉ first_three) packs) = length rest.
Proof.
  intros Hnd Hperm. rewrite Hperm in Hnd.
  apply NoDup_app in Hnd as (_ & Hdisj & _).
  rewrite Hperm, filter_app, length_app.
  rewrite filter_none by (intros x Hx Hnot; by apply Hnot).
  rewrite filter_all; [done|].
  intros x Hx Hin. by apply (Hdisj x).
Qed.

(** [DrawThreeTwiceStrategy.draft] over six packs or more without repeats. *)
Lemma draw_three_twice_returns packs rng :
  NoDup packs → 6 ≤ length packs →
  ∃ anchor second_three rng',
    draw_three_twice packs rng = Ok ((anchor, second_three), rng') ∧
    anchor ∈ packs ∧ (∀ p, p ∈ second_three → p ∈ packs) ∧
    (anchor ∉ second_three) ∧ length second_three = 3.
Proof.
  intros Hnd Hlen. unfold draw_three_twice.
  destruct (sample_returns packs 3 rng) as (first_three & rng1 & Hfirst);
    [lia|].
  rewrite Hfirst. cbn [mbind Result_bind].
  pose proof (sample_permutation _ _ _ _ _ Hfirst) as (Hlen1 & rest & Hperm).
  destruct (choice_returns first_three rng1) as (anchor & rng2 & Hpick).
  { intros ->. simpl in Hlen1. lia. }
  rewrite Hpick. cbn [mbind Result_bind].
  destruct (sample_returns (filter (λ pack, pack ∉ first_three) packs) 3 rng2)
    as (second_three & rng3 & Hsecond).
  { rewrite (length_filter_rest packs first_three rest Hnd Hperm).
    apply Permutation_length in Hperm. rewrite length_app in Hperm. lia. }
  rewrite Hsecond. cbn [mbind Result_bind mret Result_ret].
  exists anchor, second_three, rng3. split; [done|].
  apply choice_elem_of in Hpick.
  assert (Hrest : ∀ p, p ∈ second_three → p ∈ packs ∧ p ∉ first_three).
  { intros p Hp. eapply sample_elem_of in Hp; [|exact Hsecond].
    apply list_elem_of_filter in Hp. tauto. }
  split; [by eapply sample_elem_of|]. split; [intros p Hp; by apply Hrest|].
  split; [intros Hin; by apply (Hrest anchor)|].
  by apply sample_permutation in Hsecond as [? _].
Qed.
End drafting.

(** X19: over a collection without repeats, [initialize] returns an index
    on which the evaluation of a draw of [n] packs from that collection
    returns, and its four counters together count every one of the
    [n (n - 1) / 2] pairs: no lookup misses. *)
Theorem draw_counts_every_pair (n : nat) (packs : list Pack) (g0 : Globals)
    (rng : Rng) :
  NoDup packs →
  n ≤ length packs →
  ∃ g dr rng',
    initialize packs g0 = Ok g ∧
    get_draft_result (draw n) g packs rng = Ok (dr, rng') ∧
    pairs_counted dr = Z.of_nat (n * (n - 1) / 2).
Proof.
  intros Hnd Hn. exists (built_index packs g0).
  unfold get_draft_result. cbn [draft draw].
  destruct (sample_returns packs n rng Hn) as (drafted & rng' & Hsample).
  rewrite Hsample. cbn [mbind Result_bind mret Result_ret].
  rewrite count_selection_pairs. cbn [selection_pairs].
  destruct (for_each_count_pair_indexed (built_index packs g0)
              (unordered_pairs drafted) DraftResult_new) as (dr & -> & Hcount).
  { apply Forall_forall. intros [a b] Hab.
    apply unordered_pairs_NoDup in Hab as (Hne & Ha & Hb);
      [|by eapply sample_NoDup].
    apply initialize_covers; [| |done]; by eapply sample_elem_of. }
  cbn [mbind Result_bind]. exists dr, rng'.
  split; [apply initialize_eq|]. split; [done|].
  rewrite Hcount.
  apply sample_permutation in Hsample as [Hlen _].
  pose proof (length_unordered_pairs drafted) as Hpairs. rewrite Hlen in Hpairs.
  assert (n * (n - 1) / 2 = length (unordered_pairs drafted)) as ->
    by (rewrite <- Hpairs, Nat.mul_comm; apply Nat.div_mul; lia).
  change (pairs_counted DraftResult_new) with 0%Z. lia.
Qed.

Lemma draw_counts_every_pair_witness :
  ∃ g dr rng',
    initialize six_packs module_globals = Ok g ∧
    get_draft_result (draw 4) g six_packs rng_zero = Ok (dr, rng') ∧
    pairs_counted dr = Z.of_nat (4 * (4 - 1) / 2).
Proof.
  apply (draw_counts_every_pair 4 six_packs module_globals rng_zero).
  - apply (bool_decide_unpack _). vm_compute. exact I.
  - simpl. lia.
Defined.

(** X20: over six packs or more without repeats, [initialize] returns an
    index on which the evaluation of a draft of [DrawThreeTwiceStrategy]
    returns and counts exactly three pairs. *)
Theorem draw_three_twice_counts_three (packs : list Pack) (g0 : Globals)
    (rng : Rng) :
  NoDup packs →
  6 ≤ length packs →
  ∃ g dr rng',
    initialize packs g0 = Ok g ∧
    get_draft_result DrawThreeTwiceStrategy g packs rng = Ok (dr, rng') ∧
    pairs_counted dr = 3%Z.
Proof.
  intros Hnd Hlen. exists (built_index packs g0).
  unfold get_draft_result. cbn [draft DrawThreeTwiceStrategy].
  destruct (draw_three_twice_returns packs rng Hnd Hlen)
    as (anchor & second & rng' & -> & Ha & Hsecond & Hnot & Hlen2).
  cbn [mbind Result_bind mret Result_ret].
  rewrite count_selection_pairs. cbn [selection_pairs].
  destruct (for_each_count_pair_indexed (built_index packs g0)
              ((λ other, (anchor, other)) <$> second)
              DraftResult_new) as (dr & -> & Hcount).
  { apply Forall_forall. intros pr (p & -> & Hp)%list_elem_of_fmap.
    apply initialize_covers; [done | by apply Hsecond|].
    intros ->. done. }
  cbn [mbind Result_bind]. exists dr, rng'.
  split; [apply initialize_eq|]. split; [done|].
  rewrite Hcount, length_fmap, Hlen2. reflexivity.
Qed.

Lemma draw_three_twice_counts_three_witness :
  ∃ g dr rng',
    initialize six_packs module_globals = Ok g ∧
    get_draft_result DrawThreeTwiceStrategy g six_packs rng_zero = Ok (dr, rng') ∧
    pairs_counted dr = 3%Z.
Proof.
  apply (draw_three_twice_counts_three six_packs module_globals rng_zero).
  - apply (bool_decide_unpack _). vm_compute. exact I.
  - simpl. lia.
Defined.

(** X21: a draw of [n] packs raises [ValueError] when the collection has
    fewer than [n] packs; otherwise it returns a list of [n] packs of the
    collection, which are distinct when the collection has no repeats. *)
Theorem draw_returns_iff (n : nat) (packs : list Pack) (rng : Rng) :
  (length packs < n → draft (draw n) packs rng = Raise ValueError) ∧
  (n ≤ length packs →
     ∃ drafted rng',
       draft (draw n) packs rng = Ok (SelList drafted, rng') ∧
       length drafted = n ∧
       (∀ p, p ∈ drafted → p ∈ packs) ∧
       (NoDup packs → NoDup drafted)).
Proof.
  cbn [draft draw]. split.
  - intros Hlt. by rewrite sample_raises.
  - intros Hn.
    destruct (sample_returns packs n rng Hn) as (drafted & rng' & Hsample).
    rewrite Hsample. cbn [mbind Result_bind mret Result_ret].
    exists drafted, rng'. split; [done|]. split; [|split].
    + by apply sample_permutation in Hsample as [? _].
    + intros p Hp. by eapply sample_elem_of.
    + intros Hnd. by eapply sample_NoDup.
Qed.

(** X22: over a collection without repeats, [DrawThreeTwiceStrategy.draft]
    returns exactly when there are six packs or more, and raises
    [ValueError] otherwise. *)
Theorem draw_three_twice_returns_iff (packs : list Pack) (rng : Rng) :
  NoDup packs →
  (length packs < 6 →
     draft DrawThreeTwiceStrategy packs rng = Raise ValueError) ∧
  (6 ≤ length packs →
     ∃ anchor second_three rng',
       draft DrawThreeTwiceStrategy packs rng
         = Ok (SelTuple anchor second_three, rng')).
Proof.
  intros Hnd. cbn [draft DrawThreeTwiceStrategy]. split.
  - intros Hlt. unfold draw_three_twice.
    destruct (decide (length packs < 3)) as [Hshort|Hlong].
    { by rewrite sample_raises. }
    destruct (sample_returns packs 3 rng) as (first_three & rng1 & Hfirst);
      [lia|].
    rewrite Hfirst. cbn [mbind Result_bind].
    pose proof (sample_permutation _ _ _ _ _ Hfirst) as (Hlen1 & rest & Hperm).
    destruct (choice_returns first_three rng1) as (anchor & rng2 & ->).
    { intros ->. simpl in Hlen1. lia. }
    cbn [mbind Result_bind]. rewrite sample_raises; [done|].
    rewrite (length_filter_rest packs first_three rest Hnd Hperm).
    apply Permutation_length in Hperm. rewrite length_app in Hperm. lia.
  - intros Hlen.
    destruct (draw_three_twice_returns packs rng Hnd Hlen)
      as (anchor & second & rng' & -> & _).
    cbn [mbind Result_bind mret Result_ret]. eauto.
Qed.

Lemma draw_three_twice_returns_iff_witness :
  (length [pack_a; pack_b; pack_c; pack_d; pack_w] < 6 →
     draft DrawThreeTwiceStrategy [pack_a; pack_b; pack_c; pack_d; pack_w] rng_zero
       = Raise ValueError) ∧
  (6 ≤ length [pack_a; pack_b; pack_c; pack_d; pack_w] →
     ∃ anchor second_three rng',
       draft DrawThreeTwiceStrategy [pack_a; pack_b; pack_c; pack_d; pack_w] rng_zero
         = Ok (SelTuple anchor second_three, rng')).
Proof.
  apply (draw_three_twice_returns_iff
           [pack_a; pack_b; pack_c; pack_d; pack_w] rng_zero).
  apply (bool_decide_unpack _). vm_compute. exact I.
Defined.

(** * The evaluator over a complete index *)

Section complete_index.
Implicit Types g : Globals.
Implicit Types results : TotalResults.

(** A trial that counted a pair is counted by the last cumulative counter. *)
Lemma record_trial_counted dr results :
  counters_nonneg dr → (0 < pairs_counted dr)%Z →
  total_runs (record_trial dr results) = (total_runs results + 1)%Z ∧
  unplayable_or_better (record_trial dr results)
    = (unplayable_or_better results + 1)%Z.
Proof.
  destruct results as [runs s m w u]. destruct dr as [ds dm dw du].
  unfold counters_nonneg, pairs_counted, record_trial, nonzero.
  cbn [strong medium weak unplayable total_runs strong_or_better
       medium_or_better weak_or_better unplayable_or_better].
  intros Hnn Hpos.
  destruct (Z.eqb_spec ds 0), (Z.eqb_spec dm 0), (Z.eqb_spec dw 0),
    (Z.eqb_spec du 0);
    cbn [negb orb total_runs unplayable_or_better]; lia.
Qed.

(** The evaluation of a draw of two packs or more over a complete index
    counts a pair. *)
Lemma draw_trial_counted n (packs : list Pack) g0 rng :
  NoDup packs → 2 ≤ n → n ≤ length packs →
  ∃ dr rng',
    get_draft_result (draw n) (built_index packs g0) packs rng = Ok (dr, rng') ∧
    counters_nonneg dr ∧ (0 < pairs_counted dr)%Z.
Proof.
  intros Hnd Hn2 Hn. unfold get_draft_result. cbn [draft draw].
  destruct (sample_returns packs n rng Hn) as (drafted & rng' & Hsample).
  rewrite Hsample. cbn [mbind Result_bind mret Result_ret].
  rewrite count_selection_pairs. cbn [selection_pairs].
  destruct (for_each_count_pair_indexed (built_index packs g0)
              (unordered_pairs drafted) DraftResult_new) as (dr & Hrun & Hcount).
  { apply Forall_forall. intros [a b] Hab.
    apply unordered_pairs_NoDup in Hab as (Hne & Ha & Hb);
      [|by eapply sample_NoDup].
    apply initialize_covers; [| |done]; by eapply sample_elem_of. }
  rewrite Hrun. cbn [mbind Result_bind]. exists dr, rng'. split; [done|].
  apply for_each_count_pair_bound in Hrun as [Hnn _];
    [|unfold counters_nonneg; cbn; lia].
  split; [done|]. rewrite Hcount.
  change (pairs_counted DraftResult_new) with 0%Z.
  apply sample_permutation in Hsample as [Hlen _].
  pose proof (length_unordered_pairs drafted) as Hpairs. rewrite Hlen in Hpairs.
  nia.
Qed.

Lemma test_trials_counted T self g (packs : list Pack) results rng :
  (∀ rng, ∃ dr rng',
     get_draft_result self g packs rng = Ok (dr, rng') ∧
     counters_nonneg dr ∧ (0 < pairs_counted dr)%Z) →
  ∃ res rng',
    test_trials T self g packs results rng = Ok (res, rng') ∧
    total_runs res = (total_runs results + Z.of_nat T)%Z ∧
    unplayable_or_better res = (unplayable_or_better results + Z.of_nat T)%Z.
Proof.
  intros Htrial. revert results rng.
  induction T as [|T IH]; intros results rng.
  - exists results, rng. split; [done|]. lia.
  - cbn [test_trials].
    destruct (Htrial rng) as (dr & rng1 & -> & Hnn & Hpos).
    cbn [mbind Result_bind].
    destruct (record_trial_counted dr results Hnn Hpos) as [Hruns Hlast].
    destruct (IH (record_trial dr results) rng1) as (res & rng' & Hrun & Ht & Hu).
    exists res, rng'. split; [done|]. lia.
Qed.
End complete_index.

(** X24: over a collection without repeats, [initialize] returns an index
    on which [T] trials of a draw of two packs or more return, and every
    trial is counted by [unplayable_or_better], which ends equal to
    [total_runs]. *)
Theorem test_counts_every_trial (T n : nat) (packs : list Pack)
    (g0 : Globals) (rng : Rng) :
  NoDup packs →
  2 ≤ n →
  n ≤ length packs →
  ∃ g res rng',
    initialize packs g0 = Ok g ∧
    test_trials T (draw n) g packs TotalResults_new rng = Ok (res, rng') ∧
    total_runs res = Z.of_nat T ∧
    unplayable_or_better res = Z.of_nat T.
Proof.
  intros Hnd Hn2 Hn. exists (built_index packs g0).
  destruct (test_trials_counted T (draw n) (built_index packs g0) packs
              TotalResults_new rng) as (res & rng' & Hrun & Ht & Hu).
  { intros rng1. by apply draw_trial_counted. }
  exists res, rng'. split; [apply initialize_eq|]. split; [done|].
  cbn [TotalResults_new total_runs unplayable_or_better] in Ht, Hu. lia.
Qed.

Lemma test_counts_every_trial_witness :
  ∃ g res rng',
    initialize six_packs module_globals = Ok g ∧
    test_trials 5 (draw 3) g six_packs TotalResults_new rng_zero
      = Ok (res, rng') ∧
    total_runs res = Z.of_nat 5 ∧
    unplayable_or_better res = Z.of_nat 5.
Proof.
  apply (test_counts_every_trial 5 3 six_packs module_globals rng_zero).
  - apply (bool_decide_unpack _). vm_compute. exact I.
  - lia.
  - simpl. lia.
Defined.


